(** * wasi-fs-access: the memfs adapter (src/memfs-adapter.ts)

    A shallow embedding of the adapter that presents a memfs [Volume]
    through FileSystemHandle-like classes: [MemfsFileHandle],
    [MemfsDirectoryHandle], [MemfsWritableFileStream] and
    [createMemoryFileSystem].

    Conventions of the embedding.
    - A JavaScript [number] used as an offset or a size is an integer of
      [Z]; fractional values, NaN and the infinities are outside the model.
    - [new Uint8Array(n)] throws a RangeError for a length the engine does
      not grant.  The largest length it grants is the variable
      [max_length] of the section [Engine]; whatever it is, no length above
      2^53 - 1 is granted.  Everything about streams is proved for every
      value of [max_length].
    - A [Uint8Array] / [Buffer] is a [list byte]; a JavaScript string is a
      [string], and UTF-8 encoding of the (ASCII) literals of the source
      is [list_byte_of_string].
    - A method that may throw returns an [outcome]; state (the volume, the
      fields of a stream) is passed explicitly and is NOT rolled back when
      a method throws.
    - Timestamps ([mtime], [lastModified]) are left out. *)

From Stdlib Require Import List String Ascii Strings.Byte ZArith Lia Bool.
From Stdlib Require Import Permutation.
Import ListNotations.
Local Open Scope string_scope.
Local Open Scope list_scope.
Local Open Scope Z_scope.
Set Warnings "-register-all".

(** ** JavaScript primitives used by the adapter *)

Module JS.

Definition slash : ascii := "/"%char.

(** [s.split('/')]: never empty. *)
Fixpoint split (sep : ascii) (s : string) : list string :=
  match s with
  | EmptyString => [EmptyString]
  | String c r =>
      if Ascii.eqb c sep then EmptyString :: split sep r
      else match split sep r with
           | h :: t => String c h :: t
           | [] => [String c EmptyString]
           end
  end.

(** [s.lastIndexOf(c)]: [-1] when [c] does not occur. *)
Fixpoint lastIndexOf (c : ascii) (s : string) : Z :=
  match s with
  | EmptyString => -1
  | String a r =>
      let i := lastIndexOf c r in
      if 0 <=? i then i + 1
      else if Ascii.eqb a c then 0 else -1
  end.

Definition strlen (s : string) : Z := Z.of_nat (String.length s).

Definition clamp (lo hi x : Z) : Z := Z.max lo (Z.min hi x).

(** [s.substring(a, b)]: both ends clamped to [0, length], swapped when
    out of order. *)
Definition substring (a b : Z) (s : string) : string :=
  let a' := clamp 0 (strlen s) a in
  let b' := clamp 0 (strlen s) b in
  let lo := Z.min a' b' in
  let hi := Z.max a' b' in
  String.substring (Z.to_nat lo) (Z.to_nat (hi - lo)) s.

(** [arr.pop() || ''] on an array of strings. *)
Definition pop_or_empty (l : list string) : string := last l "".

(** Typed arrays. *)
Definition Uint8Array := list byte.

Definition len (a : Uint8Array) : Z := Z.of_nat (List.length a).

(** [Number.MAX_SAFE_INTEGER]: the largest length that the conversion of
    the argument of [new Uint8Array(n)] to an index accepts. *)
Definition MAX_SAFE_INTEGER : Z := 2 ^ 53 - 1.

(** The largest length of a typed array on an engine that grants
    allocations of up to [max_length] bytes (its own limit on the length
    of a typed array, or what its memory allows). *)
Definition length_limit (max_length : Z) : Z :=
  Z.min max_length MAX_SAFE_INTEGER.

(** [new Uint8Array(n)]: [n] zero bytes; a RangeError ([None]) for a
    negative length and for a length beyond the limit. *)
Definition new_Uint8Array (max_length n : Z) : option Uint8Array :=
  if (n <? 0) || (length_limit max_length <? n) then None
  else Some (repeat x00 (Z.to_nat n)).

(** [target.set(source, offset)]: a RangeError ([None]) when the offset is
    negative or the source does not fit. *)
Definition set (target source : Uint8Array) (offset : Z)
  : option Uint8Array :=
  if offset <? 0 then None
  else if offset + len source >? len target then None
  else Some (firstn (Z.to_nat offset) target ++ source
             ++ skipn (Z.to_nat (offset + len source)) target).

(** [a.slice(start, end)]: a negative index counts from the end. *)
Definition rel_index (n i : Z) : Z :=
  if i <? 0 then Z.max (n + i) 0 else Z.min i n.

Definition slice (a : Uint8Array) (start end_ : Z) : Uint8Array :=
  let k := rel_index (len a) start in
  let final := rel_index (len a) end_ in
  firstn (Z.to_nat (Z.max (final - k) 0)) (skipn (Z.to_nat k) a).

(** Truthiness of an optional boolean option field. *)
Definition truthy (b : option bool) : bool :=
  match b with Some true => true | _ => false end.

End JS.

(** ** The volume *)

Module Memfs.

Inductive errno : Set :=
| ENOENT | EEXIST | ENOTDIR | EISDIR | ENOTEMPTY.

Definition errno_eqb (a b : errno) : bool :=
  match a, b with
  | ENOENT, ENOENT | EEXIST, EEXIST | ENOTDIR, ENOTDIR
  | EISDIR, EISDIR | ENOTEMPTY, ENOTEMPTY => true
  | _, _ => false
  end.

(** Modelled from the spec: the node tree of MemVolume (section 3 and
    4.1); the class [Volume] comes from the package memfs-browser, which
    is imported by the adapter and is not part of the repository.  A
    directory keeps its entries in insertion order. *)
Inductive Node : Type :=
| File (bytes : list byte)
| Dir (entries : list (string * Node)).

Definition Entries : Type := list (string * Node).

(** The volume is the entry list of its root directory. *)
Definition Volume : Type := Entries.

Fixpoint alist_get (k : string) (es : Entries) : option Node :=
  match es with
  | [] => None
  | (k', n) :: r => if String.eqb k k' then Some n else alist_get k r
  end.

(** Replace in place, or append: insertion order is kept. *)
Fixpoint alist_set (k : string) (n : Node) (es : Entries) : Entries :=
  match es with
  | [] => [(k, n)]
  | (k', n') :: r =>
      if String.eqb k k' then (k', n) :: r else (k', n') :: alist_set k n r
  end.

Definition alist_remove (k : string) (es : Entries) : Entries :=
  filter (fun e => negb (String.eqb k (fst e))) es.

(** Modelled from the spec: how the volume reads a path (the resolution
    inside memfs-browser is not in the repository).  Names hold no '/'
    (section 3), so the path is split at '/' and walked from the root;
    empty and "." components are skipped and ".." steps back to the
    parent, the normalisation section 3 asks of path resolution. *)
Definition resolve_step (acc : list string) (c : string) : list string :=
  if String.eqb c "" then acc
  else if String.eqb c "." then acc
  else if String.eqb c ".." then removelast acc
  else acc ++ [c].

Definition filenameToSteps (path : string) : list string :=
  fold_left resolve_step (JS.split JS.slash path) [].

Fixpoint getNode (steps : list string) (n : Node) : option Node :=
  match steps with
  | [] => Some n
  | s :: rest =>
      match n with
      | File _ => None
      | Dir es =>
          match alist_get s es with
          | Some c => getNode rest c
          | None => None
          end
      end
  end.

Definition getLink (v : Volume) (path : string) : option Node :=
  getNode (filenameToSteps path) (Dir v).

(** Apply [f] to the entry named by the last step, inside the directory
    reached by the steps before it; [e_file] is the error when a step on
    the way is a file. *)
Fixpoint at_parent (e_file : errno)
         (f : string -> Entries -> errno + Entries)
         (s : string) (rest : list string) (es : Entries)
  : errno + Entries :=
  match rest with
  | [] => f s es
  | s' :: rest' =>
      match alist_get s es with
      | Some (Dir sub) =>
          match at_parent e_file f s' rest' sub with
          | inr sub' => inr (alist_set s (Dir sub') es)
          | inl e => inl e
          end
      | Some (File _) => inl e_file
      | None => inl ENOENT
      end
  end.

Record Stats : Type := mkStats { is_directory : bool; size : Z }.

Definition stats_of (n : Node) : Stats :=
  match n with
  | File b => mkStats false (JS.len b)
  | Dir _ => mkStats true 0
  end.

(** Modelled from the spec: [stat(path) -> metadata | ENOENT] of
    MemVolume (memfs-browser's [statSync], not in the repository). *)
Definition statSync (v : Volume) (path : string) : errno + Stats :=
  match getLink v path with
  | Some n => inr (stats_of n)
  | None => inl ENOENT
  end.

(** Modelled from the spec: [read_file(path) -> bytes | ENOENT | EISDIR]
    (memfs-browser's [readFileSync], not in the repository). *)
Definition readFileSync (v : Volume) (path : string)
  : errno + list byte :=
  match getLink v path with
  | Some (File b) => inr b
  | Some (Dir _) => inl EISDIR
  | None => inl ENOENT
  end.

(** Modelled from the spec: [readdir(path)], names in insertion order,
    [ENOENT | ENOTDIR] (memfs-browser's [readdirSync], not in the
    repository). *)
Definition readdirSync (v : Volume) (path : string)
  : errno + list string :=
  match getLink v path with
  | Some (Dir es) => inr (map fst es)
  | Some (File _) => inl ENOTDIR
  | None => inl ENOENT
  end.

Definition write_entry (d : list byte) (s : string) (es : Entries)
  : errno + Entries :=
  match alist_get s es with
  | Some (Dir _) => inl EISDIR
  | _ => inr (alist_set s (File d) es)
  end.

(** Modelled from the spec: [write_file(path, bytes)] replaces the
    contents, creates no intermediate component and fails [ENOENT] on a
    missing parent (memfs-browser's [writeFileSync], not in the
    repository).  Writing onto a directory is [EISDIR]. *)
Definition writeFileSync (v : Volume) (path : string) (d : list byte)
  : errno + Volume :=
  match filenameToSteps path with
  | [] => inl EISDIR
  | s :: rest => at_parent ENOENT (write_entry d) s rest v
  end.

Fixpoint mkdirp (steps : list string) (es : Entries) : errno + Entries :=
  match steps with
  | [] => inr es
  | s :: rest =>
      match alist_get s es with
      | Some (File _) => inl ENOTDIR
      | Some (Dir sub) =>
          match mkdirp rest sub with
          | inr sub' => inr (alist_set s (Dir sub') es)
          | inl e => inl e
          end
      | None =>
          match mkdirp rest [] with
          | inr sub' => inr (alist_set s (Dir sub') es)
          | inl e => inl e
          end
      end
  end.

Definition mkdir_entry (s : string) (es : Entries) : errno + Entries :=
  match alist_get s es with
  | Some _ => inl EEXIST
  | None => inr (alist_set s (Dir []) es)
  end.

(** Modelled from the spec: [mkdir(path, recursive?) -> () | EEXIST |
    ENOENT | ENOTDIR] (memfs-browser's [mkdirSync], not in the
    repository).  With [recursive] the missing components are created
    and an existing directory is accepted. *)
Definition mkdirSync (v : Volume) (path : string) (recursive : bool)
  : errno + Volume :=
  if recursive then mkdirp (filenameToSteps path) v
  else match filenameToSteps path with
       | [] => inl EEXIST
       | s :: rest => at_parent ENOTDIR mkdir_entry s rest v
       end.

Definition unlink_entry (s : string) (es : Entries) : errno + Entries :=
  match alist_get s es with
  | Some (File _) => inr (alist_remove s es)
  | Some (Dir _) => inl EISDIR
  | None => inl ENOENT
  end.

(** Modelled from the spec: [unlink(path) -> () | ENOENT | EISDIR]
    (memfs-browser's [unlinkSync], not in the repository). *)
Definition unlinkSync (v : Volume) (path : string) : errno + Volume :=
  match filenameToSteps path with
  | [] => inl EISDIR
  | s :: rest => at_parent ENOENT unlink_entry s rest v
  end.

Definition rmdir_entry (s : string) (es : Entries) : errno + Entries :=
  match alist_get s es with
  | Some (Dir []) => inr (alist_remove s es)
  | Some (Dir (_ :: _)) => inl ENOTEMPTY
  | Some (File _) => inl ENOTDIR
  | None => inl ENOENT
  end.

(** Modelled from the spec: [rmdir(path) -> () | ENOENT | ENOTDIR |
    ENOTEMPTY] (memfs-browser's [rmdirSync], not in the repository).
    The root is never removed (section 3: a file system contains a
    distinguished root directory); the spec names no result for it, and
    the model refuses with [ENOTEMPTY], populated or not. *)
Definition rmdirSync (v : Volume) (path : string) : errno + Volume :=
  match filenameToSteps path with
  | [] => inl ENOTEMPTY
  | s :: rest => at_parent ENOENT rmdir_entry s rest v
  end.

Definition rm_entry (s : string) (es : Entries) : errno + Entries :=
  inr (alist_remove s es).

(** Modelled from the spec: recursive, forced removal (memfs-browser's
    [rmSync] with [{ recursive: true, force: true }], not in the
    repository; section 3 calls it recursive removal): the subtree is
    dropped and a missing target is not an error. *)
Definition rmSync_rf (v : Volume) (path : string) : errno + Volume :=
  match filenameToSteps path with
  | [] => inr v
  | s :: rest =>
      match at_parent ENOENT rm_entry s rest v with
      | inr v' => inr v'
      | inl _ => inr v
      end
  end.

End Memfs.

Import Memfs.

(** ** Exceptions and the state-and-exception monad *)

Inductive DOMName : Set :=
| NotFoundError | TypeMismatchError | InvalidModificationError.

(** What the adapter can throw: an error of the volume (it carries a
    [code]), a [DOMException] with its name, a plain [Error], and the
    [RangeError] of the typed-array primitives. *)
Inductive exn : Type :=
| FsError (code : errno)
| DOMException (message : string) (name : DOMName)
| Error (message : string)
| RangeError.

Inductive outcome (A : Type) : Type :=
| Ok (a : A)
| Throw (e : exn).
Arguments Ok {A} a.
Arguments Throw {A} e.

Definition M (S A : Type) : Type := S -> outcome A * S.

Definition ret {S A} (a : A) : M S A := fun s => (Ok a, s).
Definition throw {S A} (e : exn) : M S A := fun s => (Throw e, s).

Definition bind {S A B} (m : M S A) (k : A -> M S B) : M S B :=
  fun s => match m s with
           | (Ok a, s') => k a s'
           | (Throw e, s') => (Throw e, s')
           end.

(** [try { m } catch (err) { h err }]: the state reached when [m] threw is
    kept. *)
Definition try_catch {S A} (m : M S A) (h : exn -> M S A) : M S A :=
  fun s => match m s with
           | (Ok a, s') => (Ok a, s')
           | (Throw e, s') => h e s'
           end.


Notation "x <- m ;; k" := (bind m (fun x => k))
  (at level 61, m at next level, right associativity).
Notation "m ;;; k" := (bind m (fun _ => k))
  (at level 61, right associativity).

(** [err.code === 'ENOENT']: only an error of the volume has a string
    code (the [code] of a DOMException is a number). *)
Definition has_code (err : exn) (c : errno) : bool :=
  match err with
  | FsError c' => errno_eqb c' c
  | _ => false
  end.

(** A call into the volume that only reads, and one that mutates it. *)
Definition vol_read {A} (f : Volume -> errno + A) : M Volume A :=
  fun v => match f v with
           | inr a => (Ok a, v)
           | inl e => (Throw (FsError e), v)
           end.

Definition vol_update (f : Volume -> errno + Volume) : M Volume unit :=
  fun v => match f v with
           | inr v' => (Ok tt, v')
           | inl e => (Throw (FsError e), v)
           end.

(** ** MemfsFileHandle *)

(** The [volume] field of every handle and stream is a reference to the one
    shared [Volume] object: it is the state threaded through [M Volume]. *)
Record MemfsFileHandle : Type := { fh_path : string }.

Definition fh_name (this : MemfsFileHandle) : string :=
  JS.pop_or_empty (JS.split JS.slash (fh_path this)).

(** The [File] that [getFile] builds (its [lastModified] is left out). *)
Record JsFile : Type := { file_bits : list byte; file_name : string }.


Definition getFile (this : MemfsFileHandle) : M Volume JsFile :=
  try_catch
    (data <- vol_read (fun v => readFileSync v (fh_path this)) ;;
     vol_read (fun v => statSync v (fh_path this)) ;;;
     ret {| file_bits := data; file_name := fh_name this |})
    (fun err =>
       if has_code err ENOENT
       then throw (DOMException "File not found" NotFoundError)
       else throw err).

(** ** MemfsWritableFileStream *)

Record MemfsWritableFileStream : Type := {
  ws_path : string;
  ws_data : JS.Uint8Array;
  ws_position : Z;
  ws_closed : bool
}.

Definition fresh_stream (path : string) : MemfsWritableFileStream :=
  {| ws_path := path; ws_data := []; ws_position := 0; ws_closed := false |}.

(** The constructor. *)
Definition new_MemfsWritableFileStream (path : string)
           (keepExistingData : option bool) : M Volume MemfsWritableFileStream :=
  if JS.truthy keepExistingData then
    try_catch
      (existing <- vol_read (fun v => readFileSync v path) ;;
       ret {| ws_path := path; ws_data := existing;
              ws_position := JS.len existing; ws_closed := false |})
      (fun err =>
         if negb (has_code err ENOENT) then throw err
         else ret (fresh_stream path))
  else ret (fresh_stream path).

Definition createWritable (this : MemfsFileHandle)
           (keepExistingData : option bool) : M Volume MemfsWritableFileStream :=
  new_MemfsWritableFileStream (fh_path this) keepExistingData.

(** A stream together with the volume it refers to. *)
Record World : Type := { volume : Volume; stream : MemfsWritableFileStream }.

Definition with_data (w : World) (d : JS.Uint8Array) : World :=
  {| volume := volume w;
     stream := {| ws_path := ws_path (stream w); ws_data := d;
                  ws_position := ws_position (stream w);
                  ws_closed := ws_closed (stream w) |} |}.

Definition with_position (w : World) (p : Z) : World :=
  {| volume := volume w;
     stream := {| ws_path := ws_path (stream w); ws_data := ws_data (stream w);
                  ws_position := p;
                  ws_closed := ws_closed (stream w) |} |}.

Definition with_closed (w : World) (c : bool) : World :=
  {| volume := volume w;
     stream := {| ws_path := ws_path (stream w); ws_data := ws_data (stream w);
                  ws_position := ws_position (stream w);
                  ws_closed := c |} |}.

Definition with_volume (w : World) (v : Volume) : World :=
  {| volume := v; stream := stream w |}.

(** The argument of [write]: a bare [Uint8Array], or
    [{ type: 'write', position?, data }]. *)
Inductive WriteArg : Type :=
| Bytes (data : JS.Uint8Array)
| WriteParams (position : option Z) (data : JS.Uint8Array).

(** ** The engine *)

Section Engine.

(** The largest length for which the engine that runs the adapter grants
    a typed array.  The copies of a buffer that exists
    ([new Uint8Array(existing)], [Buffer.from(data)], [slice]) are no
    longer than that buffer and are granted. *)
Variable max_length : Z.

(** [const n = new Uint8Array(size); n.set(old)]. *)
Definition grow (old : JS.Uint8Array) (size : Z) : option JS.Uint8Array :=
  match JS.new_Uint8Array max_length size with
  | Some newData => JS.set newData old 0
  | None => None
  end.

Definition stream_closed : exn := Error "Stream is closed".

Definition write (arg : WriteArg) : M World unit :=
  fun w =>
    if ws_closed (stream w) then (Throw stream_closed, w)
    else
      let writeData :=
        match arg with Bytes d => d | WriteParams _ d => d end in
      let writePosition :=
        match arg with
        | Bytes _ => ws_position (stream w)
        | WriteParams (Some p) _ => p
        | WriteParams None _ => ws_position (stream w)
        end in
      let requiredSize := writePosition + JS.len writeData in
      let grown :=
        if requiredSize >? JS.len (ws_data (stream w))
        then grow (ws_data (stream w)) requiredSize
        else Some (ws_data (stream w)) in
      match grown with
      | None => (Throw RangeError, w)
      | Some data1 =>
          match JS.set data1 writeData writePosition with
          | None => (Throw RangeError, with_data w data1)
          | Some data2 =>
              (Ok tt, with_position (with_data w data2)
                                    (writePosition + JS.len writeData))
          end
      end.

Definition seek (position : Z) : M World unit :=
  fun w =>
    if ws_closed (stream w) then (Throw stream_closed, w)
    else (Ok tt, with_position w position).

Definition truncate (size : Z) : M World unit :=
  fun w =>
    if ws_closed (stream w) then (Throw stream_closed, w)
    else
      let data := ws_data (stream w) in
      let resized :=
        if size <? JS.len data then Some (JS.slice data 0 size)
        else if size >? JS.len data then grow data size
        else Some data in
      match resized with
      | None => (Throw RangeError, w)
      | Some data1 =>
          let w1 := with_data w data1 in
          (Ok tt, if ws_position (stream w1) >? size
                  then with_position w1 size else w1)
      end.

Definition close : M World unit :=
  fun w =>
    if ws_closed (stream w) then (Ok tt, w)
    else
      let w1 := with_closed w true in
      let path := ws_path (stream w1) in
      let dir := JS.substring 0 (JS.lastIndexOf JS.slash path) path in
      let ensured : outcome unit * Volume :=
        if negb (String.eqb dir "") && negb (String.eqb dir "/")
        then match mkdirSync (volume w1) dir true with
             | inr v' => (Ok tt, v')
             | inl e => if negb (errno_eqb e EEXIST)
                        then (Throw (FsError e), volume w1)
                        else (Ok tt, volume w1)
             end
        else (Ok tt, volume w1) in
      match ensured with
      | (Throw e, v1) => (Throw e, with_volume w1 v1)
      | (Ok _, v1) =>
          match writeFileSync v1 path (ws_data (stream w1)) with
          | inr v2 => (Ok tt, with_volume w1 v2)
          | inl e => (Throw (FsError e), with_volume w1 v1)
          end
      end.

(** ** MemfsDirectoryHandle *)

Record MemfsDirectoryHandle : Type := { dh_path : string }.

Definition dh_name (this : MemfsDirectoryHandle) : string :=
  JS.pop_or_empty (JS.split JS.slash (dh_path this)).

(** [this.path === '/' ? `/${name}` : `${this.path}/${name}`]. *)
Definition child_path (this : MemfsDirectoryHandle) (name : string) : string :=
  if String.eqb (dh_path this) "/" then ("/" ++ name)%string
  else (dh_path this ++ "/" ++ name)%string.

Definition getFileHandle (this : MemfsDirectoryHandle) (name : string)
           (create : option bool) : M Volume MemfsFileHandle :=
  let filePath := child_path this name in
  try_catch
    (stats <- vol_read (fun v => statSync v filePath) ;;
     if is_directory stats
     then throw (DOMException "Path is a directory" TypeMismatchError)
     else ret {| fh_path := filePath |})
    (fun err =>
       if has_code err ENOENT then
         if JS.truthy create then
           vol_update (fun v => writeFileSync v filePath []) ;;;
           ret {| fh_path := filePath |}
         else throw (DOMException "File not found" NotFoundError)
       else throw err).

Definition getDirectoryHandle (this : MemfsDirectoryHandle) (name : string)
           (create : option bool) : M Volume MemfsDirectoryHandle :=
  let dirPath := child_path this name in
  try_catch
    (stats <- vol_read (fun v => statSync v dirPath) ;;
     if negb (is_directory stats)
     then throw (DOMException "Path is not a directory" TypeMismatchError)
     else ret {| dh_path := dirPath |})
    (fun err =>
       if has_code err ENOENT then
         if JS.truthy create then
           vol_update (fun v => mkdirSync v dirPath true) ;;;
           ret {| dh_path := dirPath |}
         else throw (DOMException "Directory not found" NotFoundError)
       else throw err).

Definition removeEntry (this : MemfsDirectoryHandle) (name : string)
           (recursive : option bool) : M Volume unit :=
  let entryPath := child_path this name in
  try_catch
    (stats <- vol_read (fun v => statSync v entryPath) ;;
     if is_directory stats then
       if JS.truthy recursive
       then vol_update (fun v => rmSync_rf v entryPath)
       else vol_update (fun v => rmdirSync v entryPath)
     else vol_update (fun v => unlinkSync v entryPath))
    (fun err =>
       if has_code err ENOENT
       then throw (DOMException "Entry not found" NotFoundError)
       else if has_code err ENOTEMPTY
       then throw (DOMException "Directory not empty" InvalidModificationError)
       else throw err).

Inductive Handle : Type :=
| FileHandle (h : MemfsFileHandle)
| DirectoryHandle (h : MemfsDirectoryHandle).

Inductive Kind : Set := KindFile | KindDirectory.

Definition handle_kind (h : Handle) : Kind :=
  match h with FileHandle _ => KindFile | DirectoryHandle _ => KindDirectory end.

Definition handle_name (h : Handle) : string :=
  match h with FileHandle f => fh_name f | DirectoryHandle d => dh_name d end.

(** What an async generator has produced when it is run to its end with
    nothing else touching the volume in between: the values yielded, and
    the exception that ended it, if any. *)
Record Generated (A : Type) : Type :=
  { yielded : list A; thrown : option exn }.
Arguments yielded {A} g.
Arguments thrown {A} g.

(** The [for (const entry of entries)] loop of [values]. *)
Fixpoint values_loop (this : MemfsDirectoryHandle) (entries : list string)
         (v : Volume) : Generated Handle :=
  match entries with
  | [] => {| yielded := []; thrown := None |}
  | entry :: more =>
      let entryPath := child_path this entry in
      match statSync v entryPath with
      | inl e => {| yielded := []; thrown := Some (FsError e) |}
      | inr stats =>
          let h := if is_directory stats
                   then DirectoryHandle {| dh_path := entryPath |}
                   else FileHandle {| fh_path := entryPath |} in
          let g := values_loop this more v in
          {| yielded := h :: yielded g; thrown := thrown g |}
      end
  end.

(** The [catch] of [values] and of [keys]. *)
Definition rethrow_not_found {A} (g : Generated A) : Generated A :=
  match thrown g with
  | Some err =>
      if has_code err ENOENT
      then {| yielded := yielded g;
              thrown := Some (DOMException "Directory not found" NotFoundError) |}
      else g
  | None => g
  end.

Definition values (this : MemfsDirectoryHandle)
  : Volume -> Generated Handle * Volume :=
  fun v =>
    (rethrow_not_found
       match readdirSync v (dh_path this) with
       | inl e => {| yielded := []; thrown := Some (FsError e) |}
       | inr entries => values_loop this entries v
       end, v).

Definition keys (this : MemfsDirectoryHandle)
  : Volume -> Generated string * Volume :=
  fun v =>
    (rethrow_not_found
       match readdirSync v (dh_path this) with
       | inl e => {| yielded := []; thrown := Some (FsError e) |}
       | inr entries => {| yielded := entries; thrown := None |}
       end, v).

(** ** createMemoryFileSystem *)

Definition utf8 (s : string) : list byte := list_byte_of_string s.

(** The line feed of the literals ['...\n']. *)
Definition LF : string := String (ascii_of_nat 10) "".

(** [new Volume()]. *)
Definition new_Volume : Volume := [].

Definition createMemoryFileSystem : outcome MemfsDirectoryHandle * Volume :=
  (vol_update (fun v => mkdirSync v "/sandbox" true) ;;;
   vol_update (fun v => mkdirSync v "/tmp" true) ;;;
   vol_update (fun v => writeFileSync v "/sandbox/input.txt"
                          (utf8 ("hello from input.txt" ++ LF)%string)) ;;;
   vol_update (fun v => writeFileSync v "/sandbox/input2.txt"
                          (utf8 ("hello from input2.txt" ++ LF)%string)) ;;;
   vol_update (fun v => writeFileSync v "/sandbox/notadir" (utf8 "")) ;;;
   ret {| dh_path := "/" |}) new_Volume.

(** ** Output redirection of the demo shell (the redirect code of the
    shell's read-eval loop) *)



(** The guest writing its standard output chunk by chunk. *)
Fixpoint write_all (chunks : list JS.Uint8Array) : M World unit :=
  match chunks with
  | [] => ret tt
  | c :: more => write (Bytes c) ;;; write_all more
  end.



(** ** Vocabulary of the statements *)

(** An entry name of the data model: not empty, no '/', and neither "."
    nor "..". *)
Definition valid_name (name : string) : bool :=
  negb (String.eqb name "") && negb (String.eqb name ".")
  && negb (String.eqb name "..") && (JS.lastIndexOf JS.slash name <? 0).

(** The calls a client can make on an open stream besides [close]. *)
Inductive StreamCall : Type :=
| CallWrite (arg : WriteArg)
| CallSeek (position : Z)
| CallTruncate (size : Z).

Definition call (c : StreamCall) : M World unit :=
  match c with
  | CallWrite arg => write arg
  | CallSeek p => seek p
  | CallTruncate n => truncate n
  end.

(** A sequence of calls, each one made whatever the previous one
    returned or threw. *)
Fixpoint calls (cs : list StreamCall) (w : World) : World :=
  match cs with
  | [] => w
  | c :: more => calls more (snd (call c w))
  end.

(** The non-mutating reads of the adapter. *)
Inductive Read : Type :=
| ReadKeys (d : MemfsDirectoryHandle)
| ReadValues (d : MemfsDirectoryHandle)
| ReadGetFile (f : MemfsFileHandle).

Inductive ReadResult : Type :=
| Names (g : Generated string)
| Handles (g : Generated Handle)
| FileRead (r : outcome JsFile).

Definition read (r : Read) (v : Volume) : ReadResult * Volume :=
  match r with
  | ReadKeys d => let (g, v') := keys d v in (Names g, v')
  | ReadValues d => let (g, v') := values d v in (Handles g, v')
  | ReadGetFile f => let (o, v') := getFile f v in (FileRead o, v')
  end.

Fixpoint reads (rs : list Read) (v : Volume) : list ReadResult * Volume :=
  match rs with
  | [] => ([], v)
  | r :: more =>
      let (x, v1) := read r v in
      let (xs, v2) := reads more v1 in
      (x :: xs, v2)
  end.

(** The bytes of a buffer at an index ([undefined] beyond its end). *)
Definition byte_at (a : JS.Uint8Array) (i : Z) : option byte :=
  if i <? 0 then None else nth_error a (Z.to_nat i).

(** The positions a write resolves: the data written and where. *)
Definition write_data (arg : WriteArg) : JS.Uint8Array :=
  match arg with Bytes d => d | WriteParams _ d => d end.

Definition write_at (arg : WriteArg) (cursor : Z) : Z :=
  match arg with
  | WriteParams (Some p) _ => p
  | _ => cursor
  end.

(** The buffer [old] with [d] written at [q]: zero-padded up to [q] when
    [q] is past its end. *)
Definition written (old d : JS.Uint8Array) (q : Z) : JS.Uint8Array :=
  firstn (Z.to_nat q) (old ++ repeat x00 (Z.to_nat (q - JS.len old)))
  ++ d ++ skipn (Z.to_nat (q + JS.len d)) old.

(** The buffer [old] cut or zero-padded to [size] bytes. *)
Definition resized (old : JS.Uint8Array) (size : Z) : JS.Uint8Array :=
  firstn (Z.to_nat size) old ++ repeat x00 (Z.to_nat (size - JS.len old)).

(** ** Vocabulary of the further properties *)

(** A file met while walking [steps] from a node: what makes
    [mkdirSync(_, { recursive: true })] fail. *)
Fixpoint file_on_the_way (steps : list string) (n : Node) : bool :=
  match n with
  | File _ => true
  | Dir es =>
      match steps with
      | [] => false
      | s :: rest =>
          match alist_get s es with
          | Some c => file_on_the_way rest c
          | None => false
          end
      end
  end.

(** A call whose numeric argument, if any, is not negative. *)
Definition nonneg_call (c : StreamCall) : bool :=
  match c with
  | CallWrite (WriteParams (Some p) _) => 0 <=? p
  | CallWrite _ => true
  | CallSeek p => 0 <=? p
  | CallTruncate n => 0 <=? n
  end.

(** The largest buffer length that the calls of a sequence ask for when
    none of them throws, the cursor being at [cursor] before the first:
    the end of each write and the size of each truncate.  The cursor
    moves as the calls move it. *)
Fixpoint extent (cs : list StreamCall) (cursor : Z) : Z :=
  match cs with
  | [] => 0
  | CallWrite arg :: more =>
      let e := write_at arg cursor + JS.len (write_data arg) in
      Z.max e (extent more e)
  | CallSeek p :: more => extent more p
  | CallTruncate n :: more => Z.max n (extent more (Z.min cursor n))
  end.

(** The directory that is to hold the entry a path names: what the steps
    before the last one reach, when that is a directory. *)
Definition parent_directory (v : Volume) (path : string) : option Entries :=
  match getNode (removelast (filenameToSteps path)) (Dir v) with
  | Some (Dir sub) => Some sub
  | _ => None
  end.

(** What each call of a sequence returned or threw. *)
Fixpoint call_results (cs : list StreamCall) (w : World)
  : list (outcome unit) :=
  match cs with
  | [] => []
  | c :: more => fst (call c w) :: call_results more (snd (call c w))
  end.

Definition handle_path (h : Handle) : string :=
  match h with FileHandle f => fh_path f | DirectoryHandle d => dh_path d end.

Definition is_directory_kind (k : Kind) : bool :=
  match k with KindDirectory => true | KindFile => false end.

(** * Verification *)

(** ** Typed-array primitives *)

Section TypedArrays.

Lemma len_nonneg (a : JS.Uint8Array) : 0 <= JS.len a.
Proof. unfold JS.len. lia. Qed.

Lemma len_app (a b : JS.Uint8Array) : JS.len (a ++ b) = JS.len a + JS.len b.
Proof. unfold JS.len. rewrite length_app. lia. Qed.

Lemma len_repeat (n : nat) : JS.len (repeat x00 n) = Z.of_nat n.
Proof. unfold JS.len. now rewrite repeat_length. Qed.

Lemma skipn_repeat_zero (k n : nat) :
  skipn k (repeat x00 n) = repeat x00 (n - k).
Proof.
  revert n. induction k as [|k IH]; intros [|n]; simpl; auto.
Qed.

(** Allocating [size] bytes and copying [old] in pads [old] with zeros. *)
Lemma grow_pads (old : JS.Uint8Array) (size : Z) :
  JS.len old <= size ->
  size <= JS.length_limit max_length ->
  grow old size = Some (old ++ repeat x00 (Z.to_nat (size - JS.len old))).
Proof.
  intros Hle Hfit. pose proof (len_nonneg old) as Hn.
  unfold grow, JS.new_Uint8Array.
  destruct (size <? 0) eqn:Hs; [apply Z.ltb_lt in Hs; lia|].
  destruct (JS.length_limit max_length <? size) eqn:Hl;
    [apply Z.ltb_lt in Hl; lia|].
  cbv [orb]. unfold JS.set.
  rewrite len_repeat, Z2Nat.id by lia.
  destruct (0 + JS.len old >? size) eqn:Hg;
    [apply Z.gtb_lt in Hg; lia|].
  simpl firstn. simpl app. rewrite skipn_repeat_zero.
  change (0 <? 0) with false. cbv iota.
  do 3 f_equal. unfold JS.len in *. lia.
Qed.

(** Beyond the limit nothing is allocated. *)
Lemma grow_refused (old : JS.Uint8Array) (size : Z) :
  JS.length_limit max_length < size -> grow old size = None.
Proof.
  intros Hbig. unfold grow, JS.new_Uint8Array.
  destruct (Z.ltb_spec (JS.length_limit max_length) size) as [_|?]; [|lia].
  now rewrite orb_true_r.
Qed.

(** No engine grants more than 2^53 - 1 bytes. *)
Lemma length_limit_safe : JS.length_limit max_length <= 2 ^ 53 - 1.
Proof. unfold JS.length_limit, JS.MAX_SAFE_INTEGER. lia. Qed.

(** Writing [src] at an offset inside the target. *)
Lemma set_inside (target src : JS.Uint8Array) (q : Z) :
  0 <= q -> q + JS.len src <= JS.len target ->
  JS.set target src q =
    Some (firstn (Z.to_nat q) target ++ src
          ++ skipn (Z.to_nat (q + JS.len src)) target).
Proof.
  intros Hq Hfit. unfold JS.set.
  destruct (q <? 0) eqn:H1; [apply Z.ltb_lt in H1; lia|].
  destruct (q + JS.len src >? JS.len target) eqn:H2;
    [apply Z.gtb_lt in H2; lia|].
  reflexivity.
Qed.

Lemma set_negative (target src : JS.Uint8Array) (q : Z) :
  q < 0 -> JS.set target src q = None.
Proof.
  intros Hq. unfold JS.set.
  destruct (q <? 0) eqn:H1; [reflexivity|apply Z.ltb_ge in H1; lia].
Qed.

Lemma byte_at_inside (a : JS.Uint8Array) (i : Z) :
  0 <= i -> byte_at a i = nth_error a (Z.to_nat i).
Proof.
  intros Hi. unfold byte_at.
  destruct (i <? 0) eqn:H; [apply Z.ltb_lt in H; lia|reflexivity].
Qed.

End TypedArrays.

(** ** The buffer after a write *)

Section WriteBuffer.

Variables (old d : JS.Uint8Array) (q : Z).
Hypothesis q_nonneg : 0 <= q.

Let n := JS.len old.
Let padded := old ++ repeat x00 (Z.to_nat (q - n)).

Lemma padded_length : Z.of_nat (List.length padded) = Z.max n q.
Proof.
  unfold padded, n, JS.len. rewrite length_app, repeat_length. lia.
Qed.

Lemma written_length : JS.len (written old d q) = Z.max n (q + JS.len d).
Proof.
  unfold written. fold n. fold padded.
  rewrite !len_app. unfold JS.len at 1 3.
  rewrite length_firstn, length_skipn.
  pose proof padded_length. pose proof (len_nonneg d).
  unfold n, JS.len in *. lia.
Qed.

Lemma written_payload (i : Z) :
  q <= i < q + JS.len d ->
  byte_at (written old d q) i = byte_at d (i - q).
Proof.
  intros Hi. rewrite !byte_at_inside by lia.
  unfold written. fold n. fold padded.
  pose proof padded_length as Hp.
  assert (Hf : List.length (firstn (Z.to_nat q) padded) = Z.to_nat q)
    by (rewrite length_firstn; lia).
  rewrite nth_error_app2 by lia. rewrite Hf.
  rewrite nth_error_app1 by (unfold JS.len in Hi; lia).
  f_equal. lia.
Qed.

Lemma written_gap (i : Z) :
  n <= i < q -> byte_at (written old d q) i = Some x00.
Proof.
  intros Hi. pose proof (len_nonneg old). fold n in H.
  rewrite byte_at_inside by lia.
  unfold written. fold n. fold padded.
  pose proof padded_length as Hp.
  rewrite nth_error_app1 by (rewrite length_firstn; lia).
  rewrite nth_error_firstn.
  destruct (Nat.ltb_spec (Z.to_nat i) (Z.to_nat q)); [|lia].
  unfold padded. rewrite nth_error_app2 by (unfold n, JS.len in *; lia).
  apply nth_error_repeat. unfold n, JS.len in *. lia.
Qed.

Lemma written_rest (i : Z) :
  0 <= i < n -> ~ (q <= i < q + JS.len d) ->
  byte_at (written old d q) i = byte_at old i.
Proof.
  intros Hi Hout. pose proof (len_nonneg d) as Hd.
  rewrite !byte_at_inside by lia.
  unfold written. fold n. fold padded.
  pose proof padded_length as Hp.
  assert (Hf : List.length (firstn (Z.to_nat q) padded) = Z.to_nat q)
    by (rewrite length_firstn; lia).
  destruct (Z.lt_ge_cases i q) as [Hlt|Hge].
  - rewrite nth_error_app1 by lia.
    rewrite nth_error_firstn.
    destruct (Nat.ltb_spec (Z.to_nat i) (Z.to_nat q)); [|lia].
    unfold padded. apply nth_error_app1. unfold n, JS.len in *. lia.
  - rewrite nth_error_app2 by lia. rewrite Hf.
    rewrite nth_error_app2 by (unfold JS.len in *; lia).
    rewrite nth_error_skipn. f_equal. unfold JS.len in *. lia.
Qed.

End WriteBuffer.

(** ** write, seek and truncate on an open stream *)

Section StreamBuffer.

Lemma firstn_repeat_zero (k m : nat) :
  firstn k (repeat x00 m) = repeat x00 (Nat.min k m).
Proof.
  revert m. induction k as [|k IH]; intros [|m]; simpl; auto.
  now rewrite IH.
Qed.

Lemma firstn_padded (old : JS.Uint8Array) (k m : nat) :
  (k <= List.length old + m)%nat ->
  firstn k (old ++ repeat x00 m)
  = firstn k old ++ repeat x00 (k - List.length old).
Proof.
  intros Hk. rewrite firstn_app, firstn_repeat_zero.
  do 2 f_equal. lia.
Qed.

Lemma write_resolves (arg : WriteArg) (w : World) :
  ws_closed (stream w) = false ->
  write arg w =
    let d := write_data arg in
    let q := write_at arg (ws_position (stream w)) in
    let grown :=
      if q + JS.len d >? JS.len (ws_data (stream w))
      then grow (ws_data (stream w)) (q + JS.len d)
      else Some (ws_data (stream w)) in
    match grown with
    | None => (Throw RangeError, w)
    | Some data1 =>
        match JS.set data1 d q with
        | None => (Throw RangeError, with_data w data1)
        | Some data2 =>
            (Ok tt, with_position (with_data w data2) (q + JS.len d))
        end
    end.
Proof.
  intros Hopen. unfold write. rewrite Hopen.
  destruct arg as [d|[p|] d]; reflexivity.
Qed.

Lemma write_open_nonneg (arg : WriteArg) (w : World) :
  ws_closed (stream w) = false ->
  0 <= write_at arg (ws_position (stream w)) ->
  write_at arg (ws_position (stream w)) + JS.len (write_data arg)
  <= Z.max (JS.len (ws_data (stream w))) (JS.length_limit max_length) ->
  write arg w =
    (Ok tt,
     with_position
       (with_data w (written (ws_data (stream w)) (write_data arg)
                             (write_at arg (ws_position (stream w)))))
       (write_at arg (ws_position (stream w)) + JS.len (write_data arg))).
Proof.
  intros Hopen Hq Hfit. rewrite write_resolves by assumption. cbv zeta.
  set (old := ws_data (stream w)) in *. set (d := write_data arg) in *.
  set (q := write_at arg (ws_position (stream w))) in *.
  pose proof (len_nonneg old) as Hn. pose proof (len_nonneg d) as Hd.
  unfold written.
  destruct (q + JS.len d >? JS.len old) eqn:Hg.
  - apply Z.gtb_lt in Hg. rewrite grow_pads by lia.
    rewrite set_inside by (rewrite ?len_app, ?len_repeat; lia).
    rewrite !skipn_all2
      by (rewrite ?length_app, ?repeat_length; unfold JS.len in *; lia).
    rewrite !firstn_padded by (unfold JS.len in *; lia).
    reflexivity.
  - assert (Hle : q + JS.len d <= JS.len old).
    { destruct (Z.gtb_spec (q + JS.len d) (JS.len old)); [discriminate|lia]. }
    rewrite set_inside by lia.
    replace (Z.to_nat (q - JS.len old)) with 0%nat by lia.
    simpl repeat. rewrite app_nil_r. reflexivity.
Qed.

(** [resized] has the requested length, keeps the old prefix and pads
    with zeros. *)
Lemma resized_length (old : JS.Uint8Array) (size : Z) :
  0 <= size -> JS.len (resized old size) = size.
Proof.
  intros Hs. unfold resized. rewrite len_app, len_repeat.
  unfold JS.len. rewrite length_firstn. lia.
Qed.

Lemma resized_kept (old : JS.Uint8Array) (size i : Z) :
  0 <= i < Z.min (JS.len old) size ->
  byte_at (resized old size) i = byte_at old i.
Proof.
  intros Hi. rewrite !byte_at_inside by lia. unfold resized.
  rewrite nth_error_app1
    by (rewrite length_firstn; unfold JS.len in *; lia).
  rewrite nth_error_firstn.
  destruct (Nat.ltb_spec (Z.to_nat i) (Z.to_nat size)); [reflexivity|lia].
Qed.

Lemma resized_zero_fill (old : JS.Uint8Array) (size i : Z) :
  JS.len old <= i < size ->
  byte_at (resized old size) i = Some x00.
Proof.
  intros Hi. pose proof (len_nonneg old).
  rewrite byte_at_inside by lia. unfold resized.
  rewrite nth_error_app2
    by (rewrite length_firstn; unfold JS.len in *; lia).
  apply nth_error_repeat. rewrite length_firstn. unfold JS.len in *. lia.
Qed.

Lemma truncate_open_nonneg (size : Z) (w : World) :
  ws_closed (stream w) = false ->
  0 <= size ->
  size <= Z.max (JS.len (ws_data (stream w))) (JS.length_limit max_length) ->
  truncate size w =
    (Ok tt,
     with_position (with_data w (resized (ws_data (stream w)) size))
                   (Z.min (ws_position (stream w)) size)).
Proof.
  intros Hopen Hs Hfit. unfold truncate. rewrite Hopen.
  set (old := ws_data (stream w)) in *. pose proof (len_nonneg old) as Hn.
  assert (Hres :
    (if size <? JS.len old then Some (JS.slice old 0 size)
     else if size >? JS.len old then grow old size else Some old)
    = Some (resized old size)).
  { unfold resized. destruct (Z.ltb_spec size (JS.len old)) as [Hlt|Hge].
    - unfold JS.slice, JS.rel_index.
      destruct (0 <? 0) eqn:E0; [discriminate|].
      destruct (size <? 0) eqn:E1; [apply Z.ltb_lt in E1; lia|].
      replace (Z.to_nat (Z.min 0 (JS.len old))) with 0%nat by lia.
      simpl skipn.
      replace (Z.max (Z.min size (JS.len old) - Z.min 0 (JS.len old)) 0)
        with size by lia.
      replace (Z.to_nat (size - JS.len old)) with 0%nat by lia.
      simpl repeat. now rewrite app_nil_r.
    - rewrite firstn_all2 by (unfold JS.len in *; lia).
      destruct (Z.gtb_spec size (JS.len old)) as [Hgt|Hle].
      + apply grow_pads; lia.
      + replace (Z.to_nat (size - JS.len old)) with 0%nat by lia.
        simpl repeat. now rewrite app_nil_r. }
  rewrite Hres. cbv zeta. f_equal.
  unfold with_position, with_data; simpl.
  destruct (Z.gtb_spec (ws_position (stream w)) size) as [Hgt|Hle].
  - simpl. now rewrite Z.min_r by lia.
  - rewrite Z.min_l by lia. reflexivity.
Qed.

(** A write or a truncate that needs a buffer longer than the engine
    grants throws before anything is changed. *)
Lemma write_refused (arg : WriteArg) (w : World) :
  ws_closed (stream w) = false ->
  JS.len (ws_data (stream w))
  < write_at arg (ws_position (stream w)) + JS.len (write_data arg) ->
  JS.length_limit max_length
  < write_at arg (ws_position (stream w)) + JS.len (write_data arg) ->
  write arg w = (Throw RangeError, w).
Proof.
  intros Hopen Hlong Hbig. rewrite write_resolves by assumption. cbv zeta.
  destruct (Z.gtb_spec
              (write_at arg (ws_position (stream w)) + JS.len (write_data arg))
              (JS.len (ws_data (stream w)))) as [_|?]; [|lia].
  now rewrite grow_refused.
Qed.

Lemma truncate_refused (size : Z) (w : World) :
  ws_closed (stream w) = false ->
  JS.len (ws_data (stream w)) < size ->
  JS.length_limit max_length < size ->
  truncate size w = (Throw RangeError, w).
Proof.
  intros Hopen Hlong Hbig. unfold truncate. rewrite Hopen.
  destruct (Z.ltb_spec size (JS.len (ws_data (stream w)))) as [?|_]; [lia|].
  destruct (Z.gtb_spec size (JS.len (ws_data (stream w)))) as [_|?]; [|lia].
  now rewrite grow_refused.
Qed.

End StreamBuffer.

(** C2 (as amended).  On an open stream with a buffer of length [n], take
    a write of the bytes [d] at a position [q >= 0] (the explicit position,
    or the cursor when none is given).  Unless [q + len d] exceeds both
    [n] and the largest length the engine grants, the write succeeds: the
    buffer has length [max n (q + len d)], the gap [n, q) is zero, [d] is
    at [q, q + len d), every other byte of the old buffer is unchanged,
    and the cursor is [q + len d]; the volume, the path and the open flag
    are untouched.  When [q + len d] exceeds both, and it does so on every
    engine once it exceeds [n] and 2^53 - 1, the write throws RangeError
    and changes nothing.  A seek to a position at or beyond the buffer
    length succeeds and changes only the cursor. *)
Theorem write_at_nonnegative_position (arg : WriteArg) (w : World) :
  ws_closed (stream w) = false ->
  0 <= write_at arg (ws_position (stream w)) ->
  let old := ws_data (stream w) in
  let d := write_data arg in
  let q := write_at arg (ws_position (stream w)) in
  (q + JS.len d <= Z.max (JS.len old) (JS.length_limit max_length) ->
   exists data',
      write arg w = (Ok tt, with_position (with_data w data') (q + JS.len d))
      /\ JS.len data' = Z.max (JS.len old) (q + JS.len d)
      /\ (forall i, JS.len old <= i < q -> byte_at data' i = Some x00)
      /\ (forall i, q <= i < q + JS.len d ->
                    byte_at data' i = byte_at d (i - q))
      /\ (forall i, 0 <= i < JS.len old -> ~ (q <= i < q + JS.len d) ->
                    byte_at data' i = byte_at old i))
  /\ (Z.max (JS.len old) (JS.length_limit max_length) < q + JS.len d ->
      write arg w = (Throw RangeError, w))
  /\ (Z.max (JS.len old) (2 ^ 53 - 1) < q + JS.len d ->
      write arg w = (Throw RangeError, w))
  /\ (forall p, JS.len old <= p -> seek p w = (Ok tt, with_position w p)).
Proof.
  intros Hopen Hq old d q. split; [|split; [|split]].
  - intros Hfit. exists (written old d q). split.
    + apply write_open_nonneg; assumption.
    + split; [apply written_length; assumption|].
      split; [intros i Hi; apply written_gap; assumption|].
      split; [intros i Hi; apply written_payload; assumption|].
      intros i Hi Hout; apply written_rest; assumption.
  - intros Hbig. apply write_refused; [assumption| |]; fold old d q; lia.
  - intros Hbig. pose proof length_limit_safe.
    apply write_refused; [assumption| |]; fold old d q; lia.
  - intros p _. unfold seek. now rewrite Hopen.
Qed.

(** C9 (as amended).  On an open stream with buffer length [n] and cursor
    [c], [truncate(size)] with [size >= 0] succeeds, unless [size] exceeds
    both [n] and the largest length the engine grants, and leaves a buffer
    of exactly [size] bytes, the first [min n size] of them unchanged and
    the positions [n, size) zero, with the cursor at [min c size], which
    does not exceed the new buffer length.  When [size] exceeds both, and
    it does so on every engine once it exceeds [n] and 2^53 - 1,
    [truncate] throws RangeError and changes nothing. *)
Theorem truncate_to_nonnegative_size (size : Z) (w : World) :
  ws_closed (stream w) = false ->
  0 <= size ->
  let old := ws_data (stream w) in
  let c := ws_position (stream w) in
  (size <= Z.max (JS.len old) (JS.length_limit max_length) ->
   exists data',
    truncate size w = (Ok tt, with_position (with_data w data') (Z.min c size))
    /\ JS.len data' = size
    /\ (forall i, 0 <= i < Z.min (JS.len old) size ->
                  byte_at data' i = byte_at old i)
    /\ (forall i, JS.len old <= i < size -> byte_at data' i = Some x00)
    /\ Z.min c size <= JS.len data')
  /\ (Z.max (JS.len old) (JS.length_limit max_length) < size ->
      truncate size w = (Throw RangeError, w))
  /\ (Z.max (JS.len old) (2 ^ 53 - 1) < size ->
      truncate size w = (Throw RangeError, w)).
Proof.
  intros Hopen Hs old c. split; [|split].
  - intros Hfit. exists (resized old size).
    split; [apply truncate_open_nonneg; assumption|].
    split; [apply resized_length; assumption|].
    split; [intros i Hi; apply resized_kept; assumption|].
    split; [intros i Hi; apply resized_zero_fill; assumption|].
    rewrite resized_length by assumption. lia.
  - intros Hbig. apply truncate_refused; [assumption| |]; fold old; lia.
  - intros Hbig. pose proof length_limit_safe.
    apply truncate_refused; [assumption| |]; fold old; lia.
Qed.

(** C10.  [seek(p)] throws exactly when the stream is closed; on an open
    stream it succeeds for every integer [p], negative or far past the end
    of the buffer, sets the cursor to [p] and leaves the buffer (and the
    volume) as they were. *)
Theorem seek_throws_iff_closed (p : Z) (w : World) :
  ((exists e, fst (seek p w) = Throw e) <-> ws_closed (stream w) = true)
  /\ (ws_closed (stream w) = false ->
      fst (seek p w) = Ok tt
      /\ ws_position (stream (snd (seek p w))) = p
      /\ ws_data (stream (snd (seek p w))) = ws_data (stream w)
      /\ ws_closed (stream (snd (seek p w))) = false
      /\ volume (snd (seek p w)) = volume w).
Proof.
  unfold seek. destruct (ws_closed (stream w)) eqn:Hc; simpl.
  - split; [|discriminate]. split; [reflexivity|]. intros _. now eexists.
  - split; [|intros _; now rewrite Hc].
    split; [intros [e He]; discriminate|discriminate].
Qed.

(** C3.  Once [close] has run on a stream, whatever the volume holds
    afterwards, [write], [seek] and [truncate] throw the stream-closed
    error and change nothing, and a further [close] returns normally and
    changes neither the volume nor the stream. *)
Theorem closed_stream_rejects_calls
        (w : World) (v' : Volume) (arg : WriteArg) (p size : Z) :
  let w1 := with_volume (snd (close w)) v' in
  ws_closed (stream w1) = true
  /\ write arg w1 = (Throw stream_closed, w1)
  /\ seek p w1 = (Throw stream_closed, w1)
  /\ truncate size w1 = (Throw stream_closed, w1)
  /\ close w1 = (Ok tt, w1).
Proof.
  intros w1.
  assert (Hc : ws_closed (stream w1) = true).
  { unfold w1, close. destruct (ws_closed (stream w)) eqn:Hc; [exact Hc|].
    repeat match goal with
           | |- context [match ?x with _ => _ end] => destruct x
           end; reflexivity. }
  unfold write, seek, truncate, close. rewrite Hc. auto.
Qed.

(** ** Paths as the adapter builds them *)

Section Paths.

Lemma split_nonempty (sep : ascii) (s : string) : JS.split sep s <> [].
Proof.
  destruct s as [|c r]; simpl; [discriminate|].
  destruct (Ascii.eqb c sep); [discriminate|].
  destruct (JS.split sep r); discriminate.
Qed.

Lemma split_cons_other (sep c : ascii) (r : string) :
  Ascii.eqb c sep = false ->
  exists h t, JS.split sep r = h :: t
              /\ JS.split sep (String c r) = String c h :: t.
Proof.
  intros Hc. simpl. rewrite Hc.
  destruct (JS.split sep r) as [|h t] eqn:E.
  - now apply split_nonempty in E.
  - now exists h, t.
Qed.

(** Joining with the separator concatenates the component lists. *)
Lemma split_join (sep : ascii) (a b : string) :
  JS.split sep (a ++ String sep b)%string
  = JS.split sep a ++ JS.split sep b.
Proof.
  induction a as [|c a IH].
  - simpl. now rewrite Ascii.eqb_refl.
  - destruct (Ascii.eqb c sep) eqn:Hc.
    + simpl. rewrite Hc, IH. reflexivity.
    + destruct (split_cons_other sep c a Hc) as (h & t & Ha & Hca).
      rewrite Hca. simpl. rewrite Hc, IH, Ha. reflexivity.
Qed.

Lemma lastIndexOf_lower (c : ascii) (s : string) : -1 <= JS.lastIndexOf c s.
Proof.
  induction s as [|a r IH]; simpl; [lia|].
  destruct (Z.leb_spec 0 (JS.lastIndexOf c r)); [lia|].
  destruct (Ascii.eqb a c); lia.
Qed.

Lemma lastIndexOf_upper (c : ascii) (s : string) :
  JS.lastIndexOf c s < JS.strlen s.
Proof.
  unfold JS.strlen. induction s as [|a r IH]; simpl String.length.
  - simpl. lia.
  - simpl JS.lastIndexOf.
    destruct (Z.leb_spec 0 (JS.lastIndexOf c r)); [lia|].
    destruct (Ascii.eqb a c); lia.
Qed.

Lemma split_without_sep (sep : ascii) (s : string) :
  JS.lastIndexOf sep s < 0 -> JS.split sep s = [s].
Proof.
  induction s as [|a r IH]; simpl; [reflexivity|].
  destruct (Z.leb_spec 0 (JS.lastIndexOf sep r)) as [Hge|Hlt].
  - pose proof (lastIndexOf_lower sep r). lia.
  - destruct (Ascii.eqb a sep); [lia|].
    intros _. now rewrite IH.
Qed.

(** [s.substring(0, i)] for an index inside the string. *)
Lemma substring_prefix (i : Z) (s : string) :
  0 <= i <= JS.strlen s ->
  JS.substring 0 i s = String.substring 0 (Z.to_nat i) s.
Proof.
  intros Hi. unfold JS.substring, JS.clamp.
  replace (Z.min (Z.max 0 (Z.min (JS.strlen s) 0))
                 (Z.max 0 (Z.min (JS.strlen s) i))) with 0 by lia.
  replace (Z.max (Z.max 0 (Z.min (JS.strlen s) 0))
                 (Z.max 0 (Z.min (JS.strlen s) i)) - 0) with i by lia.
  reflexivity.
Qed.

Lemma substring_none (i : Z) (s : string) :
  i <= 0 -> JS.substring 0 i s = "".
Proof.
  intros Hi. unfold JS.substring, JS.clamp.
  pose proof (Nat2Z.is_nonneg (String.length s)). unfold JS.strlen.
  replace (Z.min (Z.max 0 (Z.min (Z.of_nat (String.length s)) 0))
                 (Z.max 0 (Z.min (Z.of_nat (String.length s)) i)))
    with 0 by lia.
  replace (Z.max (Z.max 0 (Z.min (Z.of_nat (String.length s)) 0))
             (Z.max 0 (Z.min (Z.of_nat (String.length s)) i)) - 0)
    with 0 by lia.
  destruct s; reflexivity.
Qed.

(** The directory part of a path, as [close] computes it. *)
Lemma split_dirname_prefix (sep : ascii) (p : string) :
  0 <= JS.lastIndexOf sep p ->
  exists b,
    JS.split sep p
    = JS.split sep (String.substring 0 (Z.to_nat (JS.lastIndexOf sep p)) p)
      ++ [b]
    /\ JS.lastIndexOf sep b < 0.
Proof.
  induction p as [|a r IH]; simpl JS.lastIndexOf; [lia|].
  destruct (Z.leb_spec 0 (JS.lastIndexOf sep r)) as [Hge|Hlt].
  - intros _. destruct (IH Hge) as (b & Hsplit & Hb). exists b.
    split; [|assumption].
    replace (Z.to_nat (JS.lastIndexOf sep r + 1))
      with (S (Z.to_nat (JS.lastIndexOf sep r))) by lia.
    simpl String.substring.
    destruct (Ascii.eqb a sep) eqn:Ha.
    + simpl. rewrite Ha, Hsplit. reflexivity.
    + destruct (split_cons_other sep a
                  (String.substring 0 (Z.to_nat (JS.lastIndexOf sep r)) r) Ha)
        as (h & t & Hd & Hcd).
      rewrite Hcd. simpl. rewrite Ha, Hsplit, Hd. reflexivity.
  - destruct (Ascii.eqb a sep) eqn:Ha; [|lia].
    intros _. exists r. split; [|assumption].
    simpl. rewrite Ha, split_without_sep by assumption.
    destruct r; reflexivity.
Qed.

Lemma split_dirname (p : string) :
  let dir := JS.substring 0 (JS.lastIndexOf JS.slash p) p in
  exists b,
    JS.lastIndexOf JS.slash b < 0
    /\ JS.pop_or_empty (JS.split JS.slash p) = b
    /\ ((0 <= JS.lastIndexOf JS.slash p
         /\ JS.split JS.slash p = JS.split JS.slash dir ++ [b])
        \/ (dir = "" /\ JS.split JS.slash p = [b])).
Proof.
  intros dir. unfold dir, JS.pop_or_empty.
  pose proof (lastIndexOf_upper JS.slash p) as Hup.
  destruct (Z.leb_spec 0 (JS.lastIndexOf JS.slash p)) as [Hge|Hlt].
  - destruct (split_dirname_prefix JS.slash p Hge) as (b & Hs & Hb).
    exists b. rewrite substring_prefix by lia.
    split; [assumption|]. split; [rewrite Hs; apply last_last|].
    left. split; assumption.
  - exists p. rewrite substring_none by lia.
    rewrite split_without_sep by assumption.
    split; [assumption|]. split; [reflexivity|]. right. split; reflexivity.
Qed.

Lemma valid_name_spec (name : string) :
  valid_name name = true ->
  name <> "" /\ name <> "." /\ name <> ".."
  /\ JS.lastIndexOf JS.slash name < 0.
Proof.
  unfold valid_name. rewrite !andb_true_iff, !negb_true_iff, !String.eqb_neq.
  rewrite Z.ltb_lt. tauto.
Qed.

Lemma resolve_step_name (acc : list string) (name : string) :
  valid_name name = true -> resolve_step acc name = acc ++ [name].
Proof.
  intros Hv. apply valid_name_spec in Hv as (H1 & H2 & H3 & _).
  unfold resolve_step.
  apply String.eqb_neq in H1, H2, H3. now rewrite H1, H2, H3.
Qed.

(** The path of an entry resolves to the steps of its directory followed
    by the entry's name. *)
Lemma steps_child_path (this : MemfsDirectoryHandle) (name : string) :
  valid_name name = true ->
  filenameToSteps (child_path this name)
  = filenameToSteps (dh_path this) ++ [name].
Proof.
  intros Hv. pose proof (valid_name_spec name Hv) as (_ & _ & _ & Hns).
  unfold child_path, filenameToSteps.
  destruct (String.eqb_spec (dh_path this) "/") as [Heq|Hne].
  - rewrite Heq.
    change ("/" ++ name)%string with ("" ++ String JS.slash name)%string.
    rewrite split_join, (split_without_sep _ name) by assumption.
    simpl. now rewrite resolve_step_name.
  - change (dh_path this ++ "/" ++ name)%string
      with (dh_path this ++ String JS.slash name)%string.
    rewrite split_join, (split_without_sep _ name) by assumption.
    rewrite fold_left_app. simpl. now apply resolve_step_name.
Qed.

(** A path whose last component is a proper name resolves to the steps of
    its directory part followed by that name. *)
Lemma steps_dirname (p : string) :
  valid_name (JS.pop_or_empty (JS.split JS.slash p)) = true ->
  filenameToSteps p
  = filenameToSteps (JS.substring 0 (JS.lastIndexOf JS.slash p) p)
    ++ [JS.pop_or_empty (JS.split JS.slash p)].
Proof.
  intros Hv. destruct (split_dirname p) as (b & Hb & Hpop & Hsplit).
  rewrite Hpop in *. unfold filenameToSteps.
  destruct Hsplit as [[_ Hs]|[Hd Hs]].
  - rewrite Hs, fold_left_app. simpl. now apply resolve_step_name.
  - rewrite Hd, Hs. simpl. now rewrite resolve_step_name.
Qed.

End Paths.

(** ** The volume *)

Section VolumeFacts.

Lemma alist_get_set_same (k : string) (n : Node) (es : Entries) :
  alist_get k (alist_set k n es) = Some n.
Proof.
  induction es as [|[k' n'] r IH]; simpl.
  - now rewrite String.eqb_refl.
  - destruct (String.eqb k k') eqn:E; simpl; rewrite E; auto.
Qed.

Lemma alist_set_same (k : string) (n : Node) (es : Entries) :
  alist_get k es = Some n -> alist_set k n es = es.
Proof.
  induction es as [|[k' n'] r IH]; simpl; [discriminate|].
  destruct (String.eqb k k'); intros H.
  - now inversion H.
  - now rewrite IH.
Qed.

Lemma getNode_app (a b : list string) (n : Node) :
  getNode (a ++ b) n
  = match getNode a n with Some m => getNode b m | None => None end.
Proof.
  revert n. induction a as [|s a IH]; intros n; simpl; [reflexivity|].
  destruct n as [?|es]; [reflexivity|].
  destruct (alist_get s es); [apply IH|reflexivity].
Qed.

Lemma getNode_file (steps : list string) (c : list byte) (n : Node) :
  getNode steps (File c) = Some n -> steps = [] /\ n = File c.
Proof.
  destruct steps; simpl; [|discriminate].
  intros H. now inversion H.
Qed.

(** A volume operation at [ps ++ [name]]: the root case apart, it is [f]
    applied to [name] inside the directory that [ps] reaches. *)
Lemma at_parent_reaches (e : errno) (f : string -> Entries -> errno + Entries)
      (name : string) (ps : list string) :
  forall (es sub sub' : Entries),
    getNode ps (Dir es) = Some (Dir sub) ->
    f name sub = inr sub' ->
    exists es',
      match ps ++ [name] with
      | [] => inl EISDIR
      | s :: rest => at_parent e f s rest es
      end = inr es'
      /\ getNode ps (Dir es') = Some (Dir sub').
Proof.
  induction ps as [|p ps IH]; intros es sub sub' Hget Hf.
  - simpl in *. inversion Hget; subst. now exists sub'.
  - simpl in Hget. destruct (alist_get p es) as [c|] eqn:Hp; [|discriminate].
    destruct c as [b|esc].
    { apply getNode_file in Hget as [_ Habs]. discriminate. }
    destruct (IH esc sub sub' Hget Hf) as (esc' & Hat & Hget').
    exists (alist_set p (Dir esc') es). split.
    + simpl app. destruct (ps ++ [name]) as [|s rest] eqn:Hs.
      * now destruct ps.
      * simpl. rewrite Hp, Hat. reflexivity.
    + simpl. now rewrite alist_get_set_same.
Qed.

(** A successful [writeFileSync] leaves the bytes at the path. *)
Lemma at_parent_write_read (e : errno) (d : list byte) (rest : list string) :
  forall (s : string) (es es' : Entries),
    at_parent e (write_entry d) s rest es = inr es' ->
    getNode (s :: rest) (Dir es') = Some (File d).
Proof.
  induction rest as [|s' rest IH]; intros s es es' H.
  - simpl in H. unfold write_entry in H.
    assert (Hes : es' = alist_set s (File d) es).
    { destruct (alist_get s es) as [[?|?]|]; now inversion H. }
    subst es'. simpl. now rewrite alist_get_set_same.
  - simpl in H. destruct (alist_get s es) as [[?|sub]|]; try discriminate.
    destruct (at_parent e (write_entry d) s' rest sub) as [?|sub'] eqn:Hat;
      [discriminate|].
    inversion H; subst es'.
    change (getNode (s :: s' :: rest) (Dir (alist_set s (Dir sub') es)))
      with (match alist_get s (alist_set s (Dir sub') es) with
            | Some c => getNode (s' :: rest) c
            | None => None
            end).
    rewrite alist_get_set_same. now apply IH with (es := sub).
Qed.

Lemma writeFileSync_read (v v' : Volume) (path : string) (d : list byte) :
  writeFileSync v path d = inr v' -> readFileSync v' path = inr d.
Proof.
  unfold writeFileSync, readFileSync, getLink.
  destruct (filenameToSteps path) as [|s rest]; [discriminate|].
  intros H. now rewrite (at_parent_write_read _ _ _ _ _ _ H).
Qed.

(** Writing succeeds at [ps ++ [name]] when [ps] reaches a directory in
    which [name] is not itself a directory. *)
Lemma writeFileSync_in_directory (v : Volume) (path name : string)
      (ps : list string) (sub : Entries) (d : list byte) :
  filenameToSteps path = ps ++ [name] ->
  getNode ps (Dir v) = Some (Dir sub) ->
  (forall x, alist_get name sub <> Some (Dir x)) ->
  exists v', writeFileSync v path d = inr v'.
Proof.
  intros Hsteps Hget Hnodir. unfold writeFileSync. rewrite Hsteps.
  destruct (at_parent_reaches ENOENT (write_entry d) name ps v sub
              (alist_set name (File d) sub) Hget) as (v' & Hat & _).
  - unfold write_entry. destruct (alist_get name sub) as [[?|x]|]; auto.
    now destruct (Hnodir x).
  - exists v'. destruct (ps ++ [name]); [discriminate|assumption].
Qed.

(** [mkdirSync(dir, { recursive: true })] on a directory that exists. *)
Lemma mkdirp_existing (steps : list string) :
  forall (es sub : Entries),
    getNode steps (Dir es) = Some (Dir sub) -> mkdirp steps es = inr es.
Proof.
  induction steps as [|s steps IH]; intros es sub H; simpl; [reflexivity|].
  simpl in H. destruct (alist_get s es) as [c|] eqn:Hs; [|discriminate].
  destruct c as [b|esc].
  { apply getNode_file in H as [_ Habs]. discriminate. }
  rewrite (IH esc sub H). now rewrite alist_set_same.
Qed.

(** [mkdirSync] with [recursive] creating one missing entry. *)
Lemma mkdirp_fresh (name : string) (ps : list string) :
  forall (es sub : Entries),
    getNode ps (Dir es) = Some (Dir sub) ->
    alist_get name sub = None ->
    exists es', mkdirp (ps ++ [name]) es = inr es'
                /\ getNode (ps ++ [name]) (Dir es') = Some (Dir []).
Proof.
  induction ps as [|p ps IH]; intros es sub Hget Hfresh.
  - simpl in Hget. inversion Hget; subst sub. simpl. rewrite Hfresh.
    eexists. split; [reflexivity|]. simpl. now rewrite alist_get_set_same.
  - simpl in Hget. destruct (alist_get p es) as [c|] eqn:Hp; [|discriminate].
    destruct c as [b|esc].
    { apply getNode_file in Hget as [_ Habs]. discriminate. }
    destruct (IH esc sub Hget Hfresh) as (esc' & Hmk & Hget').
    exists (alist_set p (Dir esc') es). simpl. rewrite Hp, Hmk.
    split; [reflexivity|]. now rewrite alist_get_set_same.
Qed.

(** [rmdirSync] refuses a populated directory. *)
Lemma at_parent_rmdir_populated (rest : list string) :
  forall (s : string) (es : Entries) (x : string * Node) (xs : Entries),
    getNode (s :: rest) (Dir es) = Some (Dir (x :: xs)) ->
    at_parent ENOENT rmdir_entry s rest es = inl ENOTEMPTY.
Proof.
  induction rest as [|s' rest IH]; intros s es x xs H.
  - simpl in *. unfold rmdir_entry.
    destruct (alist_get s es) as [c|]; [|discriminate].
    now inversion H.
  - change (getNode (s :: s' :: rest) (Dir es))
      with (match alist_get s es with
            | Some c => getNode (s' :: rest) c
            | None => None
            end) in H.
    simpl. destruct (alist_get s es) as [[b|sub]|]; try discriminate.
    now rewrite (IH s' sub x xs H).
Qed.

Lemma rmdirSync_populated (v : Volume) (path : string)
      (x : string * Node) (xs : Entries) :
  getLink v path = Some (Dir (x :: xs)) -> rmdirSync v path = inl ENOTEMPTY.
Proof.
  unfold getLink, rmdirSync.
  destruct (filenameToSteps path) as [|s rest].
  - simpl. intros H. now inversion H.
  - apply at_parent_rmdir_populated.
Qed.

End VolumeFacts.

(** ** Reading through the handles *)

Section HandleFacts.

Lemma getLink_of_stat_directory (v : Volume) (p : string) (st : Stats) :
  statSync v p = inr st -> is_directory st = true ->
  exists es, getLink v p = Some (Dir es).
Proof.
  unfold statSync. destruct (getLink v p) as [[b|es]|]; try discriminate.
  - intros H Hd. inversion H; subst. discriminate.
  - intros _ _. now exists es.
Qed.

Lemma getLink_of_stat_file (v : Volume) (p : string) (st : Stats) :
  statSync v p = inr st -> is_directory st = false ->
  exists b, getLink v p = Some (File b).
Proof.
  unfold statSync. destruct (getLink v p) as [[b|es]|]; try discriminate.
  - intros _ _. now exists b.
  - intros H Hd. inversion H; subst. discriminate.
Qed.

Lemma getLink_of_stat_missing (v : Volume) (p : string) :
  statSync v p = inl ENOENT -> getLink v p = None.
Proof.
  unfold statSync. now destruct (getLink v p).
Qed.

Lemma getFile_pure (f : MemfsFileHandle) (v : Volume) :
  snd (getFile f v) = v.
Proof.
  unfold getFile, try_catch, bind, vol_read, ret, throw.
  destruct (readFileSync v (fh_path f)) as [e|d]; simpl.
  - destruct (errno_eqb e ENOENT); reflexivity.
  - destruct (statSync v (fh_path f)) as [e|st]; simpl; [|reflexivity].
    destruct (errno_eqb e ENOENT); reflexivity.
Qed.

Lemma getFile_of_file (f : MemfsFileHandle) (v : Volume) (d : list byte) :
  readFileSync v (fh_path f) = inr d ->
  getFile f v = (Ok {| file_bits := d; file_name := fh_name f |}, v).
Proof.
  intros Hr. unfold getFile, try_catch, bind, vol_read, ret. rewrite Hr.
  unfold readFileSync in Hr. unfold statSync.
  destruct (getLink v (fh_path f)) as [[b|es]|]; try discriminate.
  reflexivity.
Qed.

Lemma read_pure (r : Read) (v : Volume) : snd (read r v) = v.
Proof.
  destruct r as [d|d|f]; simpl; try reflexivity.
  pose proof (getFile_pure f v). destruct (getFile f v). assumption.
Qed.

Lemma reads_pure (rs : list Read) (v : Volume) : snd (reads rs v) = v.
Proof.
  revert v. induction rs as [|r rs IH]; intros v; simpl; [reflexivity|].
  pose proof (read_pure r v) as Hr. destruct (read r v) as [x v1].
  simpl in Hr. subst v1.
  pose proof (IH v) as Hrs. destruct (reads rs v) as [xs v2]. assumption.
Qed.

Lemma createWritable_pure (h : MemfsFileHandle) (keep : option bool)
      (v v0 : Volume) (s : MemfsWritableFileStream) :
  createWritable h keep v = (Ok s, v0) ->
  v0 = v /\ ws_path s = fh_path h /\ ws_closed s = false.
Proof.
  unfold createWritable, new_MemfsWritableFileStream.
  destruct (JS.truthy keep).
  - unfold try_catch, bind, vol_read, ret, throw.
    destruct (readFileSync v (fh_path h)) as [e|d]; simpl.
    + destruct (errno_eqb e ENOENT); simpl; intros H; inversion H; auto.
    + intros H; inversion H; auto.
  - unfold ret. intros H; inversion H; auto.
Qed.

(** What [write], [seek] and [truncate] leave alone. *)
Lemma call_frame (c : StreamCall) (w : World) :
  let w' := snd (call c w) in
  volume w' = volume w
  /\ ws_path (stream w') = ws_path (stream w)
  /\ ws_closed (stream w') = ws_closed (stream w).
Proof.
  destruct c as [arg|p|n]; unfold call, write, seek, truncate;
    destruct (ws_closed (stream w)) eqn:Hc; simpl; auto;
    repeat match goal with
           | |- context [match ?x with _ => _ end] => destruct x
           end; simpl; auto.
Qed.

Lemma calls_frame (cs : list StreamCall) (w : World) :
  volume (calls cs w) = volume w
  /\ ws_path (stream (calls cs w)) = ws_path (stream w)
  /\ ws_closed (stream (calls cs w)) = ws_closed (stream w).
Proof.
  revert w. induction cs as [|c cs IH]; intros w; simpl; [auto|].
  destruct (IH (snd (call c w))) as (H1 & H2 & H3).
  destruct (call_frame c w) as (F1 & F2 & F3).
  rewrite H1, H2, H3. auto.
Qed.

(** A [close] that returns has written the whole buffer to the path. *)
Lemma close_publishes (w w' : World) :
  ws_closed (stream w) = false ->
  close w = (Ok tt, w') ->
  readFileSync (volume w') (ws_path (stream w)) = inr (ws_data (stream w))
  /\ stream w' = stream (with_closed w true).
Proof.
  intros Hopen. unfold close. rewrite Hopen.
  set (w1 := with_closed w true).
  change (ws_path (stream w1)) with (ws_path (stream w)).
  change (ws_data (stream w1)) with (ws_data (stream w)).
  destruct (negb _ && negb _).
  - destruct (mkdirSync (volume w1) _ true) as [e|v1].
    + destruct (negb (errno_eqb e EEXIST)); [discriminate|].
      destruct (writeFileSync _ _ _) as [?|v2] eqn:Hw; [discriminate|].
      intros H; inversion H; subst w'. simpl.
      split; [now apply writeFileSync_read with (v := volume w1)|reflexivity].
    + destruct (writeFileSync _ _ _) as [?|v2] eqn:Hw; [discriminate|].
      intros H; inversion H; subst w'. simpl.
      split; [now apply writeFileSync_read with (v := v1)|reflexivity].
  - destruct (writeFileSync _ _ _) as [?|v2] eqn:Hw; [discriminate|].
    intros H; inversion H; subst w'. simpl.
    split; [now apply writeFileSync_read with (v := volume w1)|reflexivity].
Qed.

(** [close] returns when the path names an existing file by a proper
    name. *)
Lemma close_returns (w : World) (c : list byte) :
  ws_closed (stream w) = false ->
  readFileSync (volume w) (ws_path (stream w)) = inr c ->
  valid_name (JS.pop_or_empty (JS.split JS.slash (ws_path (stream w)))) = true ->
  exists w', close w = (Ok tt, w').
Proof.
  intros Hopen Hread Hname.
  set (p := ws_path (stream w)) in *.
  set (dir := JS.substring 0 (JS.lastIndexOf JS.slash p) p).
  set (b := JS.pop_or_empty (JS.split JS.slash p)) in *.
  pose proof (steps_dirname p Hname) as Hsteps. fold dir b in Hsteps.
  assert (Hparent : exists sub,
             getNode (filenameToSteps dir) (Dir (volume w)) = Some (Dir sub)
             /\ alist_get b sub = Some (File c)).
  { unfold readFileSync, getLink in Hread. rewrite Hsteps, getNode_app in Hread.
    destruct (getNode (filenameToSteps dir) (Dir (volume w))) as [[?|sub]|];
      try discriminate.
    exists sub. split; [reflexivity|]. simpl in Hread.
    destruct (alist_get b sub) as [[?|?]|]; try discriminate.
    now inversion Hread. }
  destruct Hparent as (sub & Hdir & Hb).
  destruct (writeFileSync_in_directory (volume w) p b (filenameToSteps dir)
              sub (ws_data (stream w)) Hsteps Hdir) as (v2 & Hw).
  { intros x. rewrite Hb. discriminate. }
  exists (with_volume (with_closed w true) v2).
  unfold close. rewrite Hopen.
  change (ws_path (stream (with_closed w true))) with p.
  change (ws_data (stream (with_closed w true))) with (ws_data (stream w)).
  change (volume (with_closed w true)) with (volume w).
  fold dir. unfold mkdirSync. rewrite (mkdirp_existing _ _ _ Hdir).
  destruct (negb _ && negb _); now rewrite Hw.
Qed.

End HandleFacts.

(** ** The claims about handles and the volume *)

(** C5.  When [name] refers to a populated directory, [removeEntry(name)]
    without a truthy [recursive] throws the DOMException
    InvalidModificationError (the volume's ENOTEMPTY) and leaves the
    volume, hence that directory and its entries, as they were; when
    [name] does not exist it throws NotFoundError. *)
Theorem removeEntry_populated_or_missing
        (this : MemfsDirectoryHandle) (name : string)
        (recursive : option bool) (v : Volume) :
  (forall st n ns,
      statSync v (child_path this name) = inr st ->
      is_directory st = true ->
      readdirSync v (child_path this name) = inr (n :: ns) ->
      JS.truthy recursive = false ->
      removeEntry this name recursive v
      = (Throw (DOMException "Directory not empty" InvalidModificationError),
         v))
  /\ (statSync v (child_path this name) = inl ENOENT ->
      removeEntry this name recursive v
      = (Throw (DOMException "Entry not found" NotFoundError), v)).
Proof.
  split.
  - intros st n ns Hst Hdir Hls Hrec.
    unfold removeEntry, try_catch, bind, vol_read, vol_update, throw.
    rewrite Hst, Hdir, Hrec.
    assert (Hrm : rmdirSync v (child_path this name) = inl ENOTEMPTY).
    { unfold readdirSync in Hls.
      destruct (getLink v (child_path this name)) as [[?|[|x xs]]|] eqn:Hl;
        try discriminate.
      now apply rmdirSync_populated with (x := x) (xs := xs). }
    rewrite Hrm. reflexivity.
  - intros Hst.
    unfold removeEntry, try_catch, bind, vol_read, throw. rewrite Hst.
    reflexivity.
Qed.

(** C7.  Reads do not change the volume, so any read made after any
    sequence of reads returns what it returns on the snapshot itself; two
    enumerations in a row yield the same names in the same order and the
    same handles with the same kinds, and two [getFile] calls in a row
    return the same bytes. *)
Theorem reads_are_stable (rs : list Read) (v : Volume) :
  snd (reads rs v) = v
  /\ (forall r, fst (read r (snd (reads rs v))) = fst (read r v))
  /\ (forall d, fst (keys d (snd (keys d v))) = fst (keys d v))
  /\ (forall d,
        let first := fst (values d v) in
        let second := fst (values d (snd (values d v))) in
        second = first
        /\ map handle_name (yielded second) = map handle_name (yielded first)
        /\ map handle_kind (yielded second) = map handle_kind (yielded first))
  /\ (forall f, fst (getFile f (snd (getFile f v))) = fst (getFile f v)).
Proof.
  split; [apply reads_pure|].
  split; [intros r; now rewrite reads_pure|].
  split; [reflexivity|].
  split; [intros d; repeat split; reflexivity|].
  intros f. now rewrite getFile_pure.
Qed.

(** C8.  [createMemoryFileSystem] returns the root handle of a volume
    whose root holds the directories sandbox and tmp; /sandbox holds
    input.txt with the bytes "hello from input.txt\n", input2.txt with
    the bytes "hello from input2.txt\n" and the empty file notadir. *)
Theorem createMemoryFileSystem_layout :
  let v := snd createMemoryFileSystem in
  fst createMemoryFileSystem = Ok {| dh_path := "/" |}
  /\ statSync v "/sandbox" = inr (mkStats true 0)
  /\ statSync v "/tmp" = inr (mkStats true 0)
  /\ readdirSync v "/" = inr ["sandbox"; "tmp"]
  /\ readdirSync v "/sandbox" = inr ["input.txt"; "input2.txt"; "notadir"]
  /\ readFileSync v "/sandbox/input.txt"
     = inr (utf8 "hello from input.txt" ++ [x0a])
  /\ readFileSync v "/sandbox/input2.txt"
     = inr (utf8 "hello from input2.txt" ++ [x0a])
  /\ readFileSync v "/sandbox/notadir" = inr [].
Proof.
  vm_compute. repeat split; reflexivity.
Qed.

(** ** Instances and boundary cases *)

(** A write at a negative position throws a RangeError: that of
    [TypedArray.prototype.set], if not already that of the allocation. *)
Lemma write_negative_position_throws (arg : WriteArg) (w : World) :
  ws_closed (stream w) = false ->
  write_at arg (ws_position (stream w)) < 0 ->
  fst (write arg w) = Throw RangeError.
Proof.
  intros Hopen Hneg. rewrite write_resolves by assumption. cbv zeta.
  set (old := ws_data (stream w)). set (d := write_data arg).
  set (q := write_at arg (ws_position (stream w))) in *.
  pose proof (len_nonneg old) as Hn.
  destruct (q + JS.len d >? JS.len old) eqn:Hg.
  - apply Z.gtb_lt in Hg.
    destruct (Z.le_gt_cases (q + JS.len d) (JS.length_limit max_length))
      as [Hfit|Hbig].
    + rewrite grow_pads by lia. now rewrite set_negative.
    + now rewrite grow_refused by lia.
  - now rewrite set_negative.
Qed.

Lemma seek_throws_iff_closed_witness :
  let w := {| volume := []; stream := fresh_stream "/f" |} in
  fst (seek (-7) w) = Ok tt
  /\ ws_position (stream (snd (seek (-7) w))) = -7
  /\ ws_data (stream (snd (seek (-7) w))) = []
  /\ ws_closed (stream (snd (seek (-7) w))) = false
  /\ volume (snd (seek (-7) w)) = [].
Proof.
  intros w. apply (proj2 (seek_throws_iff_closed (-7) w)). reflexivity.
Defined.

(** The volume of scenario E of the specification:
    [mkdir /sandbox/d; touch /sandbox/d/x]. *)
Lemma removeEntry_populated_or_missing_witness :
  let sandbox := {| dh_path := "/sandbox" |} in
  let v0 := snd createMemoryFileSystem in
  let v1 := snd (getDirectoryHandle sandbox "d" (Some true) v0) in
  let v2 := snd (getFileHandle {| dh_path := "/sandbox/d" |} "x"
                               (Some true) v1) in
  removeEntry sandbox "d" None v2
  = (Throw (DOMException "Directory not empty" InvalidModificationError), v2)
  /\ readdirSync v2 "/sandbox/d" = inr ["x"]
  /\ removeEntry sandbox "nothing" None v2
     = (Throw (DOMException "Entry not found" NotFoundError), v2).
Proof.
  intros sandbox v0 v1 v2. split; [|split].
  - apply (proj1 (removeEntry_populated_or_missing sandbox "d" None v2)
                 (mkStats true 0) "x" []); reflexivity.
  - reflexivity.
  - apply (proj2 (removeEntry_populated_or_missing sandbox "nothing" None v2)).
    reflexivity.
Defined.

(** * Further properties *)

(** ** Streams: composition, failure and bounds *)

Section StreamComposition.

Lemma written_twice (old a b : JS.Uint8Array) (q : Z) :
  0 <= q ->
  written (written old a q) b (q + JS.len a) = written old (a ++ b) q.
Proof.
  intros Hq. pose proof (written_length old a q Hq) as Hlen.
  pose proof (len_nonneg old) as Hn. pose proof (len_nonneg a) as Ha.
  pose proof (len_nonneg b) as Hb.
  set (k := Z.to_nat q). set (la := List.length a). set (lb := List.length b).
  assert (E1 : Z.to_nat (q + JS.len a) = (k + la)%nat)
    by (unfold JS.len, k, la in *; lia).
  assert (E2 : Z.to_nat (q + JS.len a + JS.len b) = (k + la + lb)%nat)
    by (unfold JS.len, k, la, lb in *; lia).
  assert (E3 : Z.to_nat (q + JS.len (a ++ b)) = (k + la + lb)%nat)
    by (rewrite len_app; unfold JS.len, k, la, lb in *; lia).
  assert (E4 : Z.to_nat (q + JS.len a - JS.len (written old a q)) = 0%nat)
    by lia.
  unfold written at 1. rewrite E4. simpl repeat. rewrite app_nil_r.
  unfold written. rewrite E1, E2, E3. fold k.
  set (P := firstn k (old ++ repeat x00 (Z.to_nat (q - JS.len old)))).
  assert (HP : List.length P = k).
  { unfold P. rewrite length_firstn, length_app, repeat_length.
    unfold JS.len, k in *. lia. }
  rewrite firstn_app, (firstn_all2 P) by lia.
  rewrite HP. replace (k + la - k)%nat with la by lia.
  rewrite firstn_app, (firstn_all2 a) by (unfold la; lia).
  replace (la - List.length a)%nat with 0%nat by (unfold la; lia).
  simpl firstn. rewrite app_nil_r.
  rewrite skipn_app, (skipn_all2 P) by lia.
  rewrite HP. replace (k + la + lb - k)%nat with (la + lb)%nat by lia.
  rewrite skipn_app, (skipn_all2 a) by (unfold la; lia).
  replace (la + lb - List.length a)%nat with lb by (unfold la; lia).
  rewrite skipn_skipn. simpl app.
  replace (lb + (k + la))%nat with (k + la + lb)%nat by lia.
  now rewrite <- !app_assoc.
Qed.

Lemma write_then_write (a b : JS.Uint8Array) (w : World) :
  ws_closed (stream w) = false ->
  0 <= ws_position (stream w) ->
  ws_position (stream w) + JS.len (a ++ b)
  <= Z.max (JS.len (ws_data (stream w))) (JS.length_limit max_length) ->
  (write (Bytes a) ;;; write (Bytes b)) w = write (Bytes (a ++ b)) w.
Proof.
  intros Hopen Hpos Hfit. unfold bind.
  pose proof (len_nonneg a) as Ha. pose proof (len_nonneg b) as Hb.
  pose proof (len_nonneg (ws_data (stream w))) as Hn.
  rewrite len_app in Hfit.
  rewrite (write_open_nonneg (Bytes a) w Hopen Hpos) by (simpl; lia).
  simpl write_at. simpl write_data.
  rewrite (write_open_nonneg (Bytes (a ++ b)) w Hopen Hpos)
    by (simpl; rewrite len_app; lia).
  simpl write_at. simpl write_data.
  rewrite write_open_nonneg; simpl; try assumption.
  - rewrite written_twice by assumption.
    unfold with_position, with_data. simpl.
    now rewrite len_app, Z.add_assoc.
  - lia.
  - rewrite written_length by assumption. lia.
Qed.

(** Chunk after chunk, as long as the engine grants the buffer. *)
Lemma write_all_granted (c : JS.Uint8Array) (cs : list JS.Uint8Array)
      (w : World) :
  ws_closed (stream w) = false ->
  0 <= ws_position (stream w) ->
  ws_position (stream w) + JS.len (c ++ List.concat cs)
  <= Z.max (JS.len (ws_data (stream w))) (JS.length_limit max_length) ->
  write_all (c :: cs) w = write (Bytes (c ++ List.concat cs)) w.
Proof.
  revert c w. induction cs as [|c2 cs IH]; intros c w Hopen Hpos Hfit.
  - simpl List.concat in *. rewrite app_nil_r in *. simpl write_all.
    unfold bind, ret.
    rewrite (write_open_nonneg (Bytes c) w Hopen Hpos) by (simpl; lia).
    reflexivity.
  - pose proof (len_nonneg c) as Hc.
    pose proof (len_nonneg (List.concat (c2 :: cs))) as Hrest.
    rewrite len_app in Hfit.
    simpl List.concat in *.
    rewrite <- write_then_write
      by (try assumption; rewrite len_app; lia).
    change (write_all (c :: c2 :: cs))
      with (write (Bytes c) ;;; write_all (c2 :: cs)).
    unfold bind.
    rewrite (write_open_nonneg (Bytes c) w Hopen Hpos) by (simpl; lia).
    simpl write_at. simpl write_data.
    apply IH; simpl; [assumption|lia|].
    rewrite written_length by assumption. lia.
Qed.

(** When the engine does not grant the buffer that all the chunks need,
    one of the writes throws. *)
Lemma write_all_refused (c : JS.Uint8Array) (cs : list JS.Uint8Array)
      (w : World) :
  ws_closed (stream w) = false ->
  0 <= ws_position (stream w) ->
  Z.max (JS.len (ws_data (stream w))) (JS.length_limit max_length)
  < ws_position (stream w) + JS.len (c ++ List.concat cs) ->
  fst (write_all (c :: cs) w) = Throw RangeError.
Proof.
  revert c w. induction cs as [|c2 cs IH]; intros c w Hopen Hpos Hbig.
  - simpl List.concat in *. rewrite app_nil_r in *. simpl write_all.
    unfold bind.
    rewrite (write_refused (Bytes c) w Hopen) by (simpl; lia).
    reflexivity.
  - pose proof (len_nonneg c) as Hc.
    rewrite len_app in Hbig. simpl List.concat in *.
    change (write_all (c :: c2 :: cs))
      with (write (Bytes c) ;;; write_all (c2 :: cs)).
    unfold bind.
    destruct (Z.le_gt_cases
                (ws_position (stream w) + JS.len c)
                (Z.max (JS.len (ws_data (stream w)))
                       (JS.length_limit max_length))) as [Hfit|Hnow].
    + rewrite (write_open_nonneg (Bytes c) w Hopen Hpos) by (simpl; lia).
      simpl write_at. simpl write_data.
      apply IH; simpl; [assumption|lia|].
      rewrite written_length by assumption. lia.
    + rewrite (write_refused (Bytes c) w Hopen) by (simpl; lia).
      reflexivity.
Qed.

Lemma with_data_same (w : World) : with_data w (ws_data (stream w)) = w.
Proof. destruct w as [v [p d q c]]. reflexivity. Qed.

End StreamComposition.

(** X1.  On an open stream whose cursor is not negative, writing the
    chunks of a non-empty list one after the other at the cursor is the
    same as one write of their concatenation: same result, same buffer,
    same cursor, when the engine grants the buffer that they need; when
    it does not, both throw RangeError. *)
Theorem write_all_is_one_write
        (c : JS.Uint8Array) (cs : list JS.Uint8Array) (w : World) :
  ws_closed (stream w) = false ->
  0 <= ws_position (stream w) ->
  fst (write_all (c :: cs) w) = fst (write (Bytes (c ++ List.concat cs)) w)
  /\ (ws_position (stream w) + JS.len (c ++ List.concat cs)
      <= Z.max (JS.len (ws_data (stream w))) (JS.length_limit max_length) ->
      write_all (c :: cs) w = write (Bytes (c ++ List.concat cs)) w)
  /\ (Z.max (JS.len (ws_data (stream w))) (JS.length_limit max_length)
      < ws_position (stream w) + JS.len (c ++ List.concat cs) ->
      fst (write_all (c :: cs) w) = Throw RangeError).
Proof.
  intros Hopen Hpos.
  split; [|split; [now apply write_all_granted|now apply write_all_refused]].
  destruct (Z.le_gt_cases
              (ws_position (stream w) + JS.len (c ++ List.concat cs))
              (Z.max (JS.len (ws_data (stream w)))
                     (JS.length_limit max_length))) as [Hfit|Hbig].
  - now rewrite write_all_granted.
  - rewrite write_all_refused by assumption.
    now rewrite (write_refused (Bytes (c ++ List.concat cs)) w Hopen)
      by (simpl; lia).
Qed.

(** X2.  A write at a negative position throws the RangeError after the
    buffer may already have been enlarged: the cursor, the path and the
    volume are as before, but when the data reaches past the end of the
    buffer, and the engine grants the length [q + len d], the buffer has
    been zero-extended to that length.  The engine does grant it when it
    holds the data, which are longer. *)
Theorem failed_write_keeps_enlarged_buffer (arg : WriteArg) (w : World) :
  ws_closed (stream w) = false ->
  write_at arg (ws_position (stream w)) < 0 ->
  let old := ws_data (stream w) in
  let q := write_at arg (ws_position (stream w)) in
  let required := q + JS.len (write_data arg) in
  write arg w
  = (Throw RangeError,
     with_data w (if (required >? JS.len old)
                     && (required <=? JS.length_limit max_length)
                  then old ++ repeat x00 (Z.to_nat (required - JS.len old))
                  else old))
  /\ (JS.len (write_data arg) <= JS.length_limit max_length ->
      write arg w
      = (Throw RangeError,
         with_data w (if required >? JS.len old
                      then old ++ repeat x00 (Z.to_nat (required - JS.len old))
                      else old))).
Proof.
  intros Hopen Hneg old q required.
  assert (Hexact :
    write arg w
    = (Throw RangeError,
       with_data w (if (required >? JS.len old)
                       && (required <=? JS.length_limit max_length)
                    then old ++ repeat x00 (Z.to_nat (required - JS.len old))
                    else old))).
  { rewrite write_resolves by assumption. cbv zeta.
    fold old. fold q. fold required.
    pose proof (len_nonneg old) as Hn.
    destruct (required >? JS.len old) eqn:Hg; cbn [andb].
    - apply Z.gtb_lt in Hg.
      destruct (Z.leb_spec required (JS.length_limit max_length))
        as [Hfit|Hbig].
      + rewrite grow_pads by lia. now rewrite set_negative.
      + rewrite grow_refused by assumption. unfold old.
        now rewrite with_data_same.
    - now rewrite set_negative by assumption. }
  split; [exact Hexact|].
  intros Hdata. rewrite Hexact.
  destruct (required >? JS.len old); [|reflexivity]. cbn [andb].
  destruct (Z.leb_spec required (JS.length_limit max_length)) as [_|Hbig];
    [reflexivity|].
  unfold required, q in *. lia.
Qed.

(** X3.  [truncate(size)] with a negative [size] does not throw: it drops
    the last [-size] bytes of the buffer (all of them when the buffer is
    shorter) and leaves the cursor at [min c size], a negative number. *)
Theorem truncate_negative_drops_tail (size : Z) (w : World) :
  ws_closed (stream w) = false ->
  size < 0 ->
  let old := ws_data (stream w) in
  truncate size w
  = (Ok tt,
     with_position
       (with_data w (firstn (Z.to_nat (JS.len old + size)) old))
       (Z.min (ws_position (stream w)) size))
  /\ JS.len (firstn (Z.to_nat (JS.len old + size)) old)
     = Z.max (JS.len old + size) 0.
Proof.
  intros Hopen Hneg old. pose proof (len_nonneg old) as Hn. split.
  - unfold truncate. rewrite Hopen. fold old.
    destruct (Z.ltb_spec size (JS.len old)) as [_|Hge]; [|lia].
    cbv zeta. f_equal.
    assert (Hs : JS.slice old 0 size
                 = firstn (Z.to_nat (JS.len old + size)) old).
    { unfold JS.slice, JS.rel_index.
      destruct (0 <? 0) eqn:E0; [discriminate|].
      destruct (Z.ltb_spec size 0) as [_|?]; [|lia].
      replace (Z.to_nat (Z.min 0 (JS.len old))) with 0%nat by lia.
      simpl skipn. f_equal. lia. }
    rewrite Hs. unfold with_position, with_data; simpl.
    destruct (Z.gtb_spec (ws_position (stream w)) size) as [Hgt|Hle].
    + simpl. now rewrite Z.min_r by lia.
    + rewrite Z.min_l by lia. reflexivity.
  - unfold JS.len. rewrite length_firstn. unfold JS.len in Hn. lia.
Qed.

(** With arguments that are not negative a call returns, or the engine
    has refused it the buffer; the stream stays open and its cursor
    non-negative. *)
Lemma nonneg_call_step (c : StreamCall) (w : World) :
  ws_closed (stream w) = false ->
  0 <= ws_position (stream w) ->
  nonneg_call c = true ->
  (fst (call c w) = Ok tt \/ fst (call c w) = Throw RangeError)
  /\ ws_closed (stream (snd (call c w))) = false
  /\ 0 <= ws_position (stream (snd (call c w))).
Proof.
  intros Hopen Hpos Hc. destruct c as [arg|p|n]; simpl call.
  - assert (Hq : 0 <= write_at arg (ws_position (stream w))).
    { destruct arg as [d|[p|] d]; simpl in *; try assumption.
      now apply Z.leb_le. }
    pose proof (len_nonneg (write_data arg)).
    destruct (Z.le_gt_cases
                (write_at arg (ws_position (stream w))
                 + JS.len (write_data arg))
                (Z.max (JS.len (ws_data (stream w)))
                       (JS.length_limit max_length))) as [Hfit|Hbig].
    + rewrite (write_open_nonneg arg w Hopen Hq Hfit). simpl.
      repeat split; [now left|assumption|lia].
    + rewrite (write_refused arg w Hopen) by lia. simpl.
      repeat split; [now right|assumption|assumption].
  - simpl in Hc. apply Z.leb_le in Hc.
    unfold seek. rewrite Hopen. simpl. auto.
  - simpl in Hc. apply Z.leb_le in Hc.
    destruct (Z.le_gt_cases n
                (Z.max (JS.len (ws_data (stream w)))
                       (JS.length_limit max_length))) as [Hfit|Hbig].
    + rewrite (truncate_open_nonneg n w Hopen Hc Hfit). simpl.
      repeat split; [now left|assumption|lia].
    + rewrite (truncate_refused n w Hopen) by lia. simpl.
      repeat split; [now right|assumption|assumption].
Qed.

(** X4.  On an open stream whose cursor is not negative, a call of a
    sequence of [write], [seek] and [truncate] calls with non-negative
    positions and sizes returns, unless the engine refuses it the buffer
    and it throws RangeError; the cursor stays non-negative and the stream
    open.  No call throws when no write ends and no truncate size lies
    beyond the length the engine grants. *)
Theorem nonnegative_calls_throw_only_beyond_limit
        (cs : list StreamCall) (w : World) :
  ws_closed (stream w) = false ->
  0 <= ws_position (stream w) ->
  forallb nonneg_call cs = true ->
  Forall (fun r => r = Ok tt \/ r = Throw RangeError) (call_results cs w)
  /\ ws_closed (stream (calls cs w)) = false
  /\ 0 <= ws_position (stream (calls cs w))
  /\ (extent cs (ws_position (stream w)) <= JS.length_limit max_length ->
      Forall (fun r => r = Ok tt) (call_results cs w)).
Proof.
  revert w. induction cs as [|c cs IH]; intros w Hopen Hpos Hall.
  - simpl. auto.
  - simpl in Hall. apply andb_true_iff in Hall as [Hc Hcs].
    destruct (nonneg_call_step c w Hopen Hpos Hc) as (Hres & Hopen' & Hpos').
    destruct (IH (snd (call c w)) Hopen' Hpos' Hcs)
      as (Hrest & Hcl & Hp & Hfits).
    simpl. split; [now constructor|]. split; [assumption|].
    split; [assumption|].
    intros Hfit.
    assert (Hstep : fst (call c w) = Ok tt
                    /\ extent cs (ws_position (stream (snd (call c w))))
                       <= JS.length_limit max_length).
    { clear IH Hres Hrest Hfits.
      destruct c as [arg|p|n]; simpl call; simpl extent in Hfit.
      - assert (Hq : 0 <= write_at arg (ws_position (stream w))).
        { destruct arg as [d|[p|] d]; simpl in *; try assumption.
          now apply Z.leb_le. }
        rewrite (write_open_nonneg arg w Hopen Hq) by lia. simpl.
        split; [reflexivity|lia].
      - unfold seek. rewrite Hopen. simpl. auto.
      - simpl in Hc. apply Z.leb_le in Hc.
        rewrite (truncate_open_nonneg n w Hopen Hc) by lia. simpl.
        split; [reflexivity|lia]. }
    destruct Hstep as (Hok & Hfit').
    constructor; [exact Hok|exact (Hfits Hfit')].
Qed.

(** ** The volume under [mkdirSync] and [writeFileSync] *)

Section VolumeUpdates.

Lemma alist_get_set_other (k k' : string) (n : Node) (es : Entries) :
  k <> k' -> alist_get k (alist_set k' n es) = alist_get k es.
Proof.
  intros Hne. induction es as [|[k0 n0] r IH]; simpl.
  - destruct (String.eqb_spec k k'); [contradiction|reflexivity].
  - destruct (String.eqb_spec k' k0) as [->|Hk0]; simpl.
    + destruct (String.eqb_spec k k0); [contradiction|reflexivity].
    + destruct (String.eqb k k0); [reflexivity|assumption].
Qed.

Lemma getNode_cons (s : string) (rest : list string) (es : Entries) :
  getNode (s :: rest) (Dir es)
  = match alist_get s es with Some c => getNode rest c | None => None end.
Proof. reflexivity. Qed.

Lemma mkdirp_error (steps : list string) :
  forall (es : Entries) (e : errno), mkdirp steps es = inl e -> e = ENOTDIR.
Proof.
  induction steps as [|s steps IH]; intros es e; simpl; [discriminate|].
  destruct (alist_get s es) as [[b|sub]|].
  - intros H. now inversion H.
  - destruct (mkdirp steps sub) eqn:Hm; [|discriminate].
    intros H. inversion H; subst. now apply IH with (es := sub).
  - destruct (mkdirp steps []) eqn:Hm; [|discriminate].
    intros H. inversion H; subst. now apply IH with (es := []).
Qed.

(** The recursive [mkdirSync] fails exactly when a file is on the way. *)
Lemma mkdirp_blocked (steps : list string) :
  forall (es : Entries),
    file_on_the_way steps (Dir es) = true -> mkdirp steps es = inl ENOTDIR.
Proof.
  induction steps as [|s steps IH]; intros es; simpl; [discriminate|].
  destruct (alist_get s es) as [[b|sub]|]; try discriminate.
  - reflexivity.
  - intros H. now rewrite (IH sub H).
Qed.

Lemma file_on_the_way_file (steps : list string) (b : list byte) :
  file_on_the_way steps (File b) = true.
Proof. now destruct steps. Qed.

Lemma mkdirp_clear (steps : list string) :
  forall (es : Entries),
    file_on_the_way steps (Dir es) = false ->
    exists es', mkdirp steps es = inr es'.
Proof.
  induction steps as [|s steps IH]; intros es; simpl.
  - intros _. now exists es.
  - destruct (alist_get s es) as [[b|sub]|].
    + now rewrite file_on_the_way_file.
    + intros H. destruct (IH sub H) as (sub' & ->). now eexists.
    + intros _. destruct (IH []) as (sub' & ->); [|now eexists].
      destruct steps; reflexivity.
Qed.

Lemma mkdirp_reaches (steps : list string) :
  forall (es es' : Entries),
    mkdirp steps es = inr es' ->
    exists sub, getNode steps (Dir es') = Some (Dir sub).
Proof.
  induction steps as [|s steps IH]; intros es es'; simpl mkdirp.
  - intros H. inversion H. now eexists.
  - destruct (alist_get s es) as [[b|sub]|]; [discriminate| |].
    + destruct (mkdirp steps sub) as [|sub'] eqn:Hm; [discriminate|].
      intros H. inversion H. rewrite getNode_cons, alist_get_set_same.
      now apply IH with (es := sub).
    + destruct (mkdirp steps []) as [|sub'] eqn:Hm; [discriminate|].
      intros H. inversion H. rewrite getNode_cons, alist_get_set_same.
      now apply IH with (es := []).
Qed.

(** What was below the directory made by [mkdirSync] is still there, and
    nothing else has appeared below it. *)
Lemma mkdirp_keeps_below (b : string) (steps : list string) :
  forall (es es' : Entries),
    mkdirp steps es = inr es' ->
    getNode (steps ++ [b]) (Dir es') = getNode (steps ++ [b]) (Dir es).
Proof.
  induction steps as [|s steps IH]; intros es es'; simpl mkdirp.
  - intros H. now inversion H.
  - simpl app. rewrite !getNode_cons.
    destruct (alist_get s es) as [[c|sub]|]; [discriminate| |].
    + destruct (mkdirp steps sub) as [|sub'] eqn:Hm; [discriminate|].
      intros H. inversion H. rewrite alist_get_set_same.
      now apply IH.
    + destruct (mkdirp steps []) as [|sub'] eqn:Hm; [discriminate|].
      intros H. inversion H. rewrite alist_get_set_same.
      rewrite (IH [] sub' Hm). now destruct steps.
Qed.

Lemma mkdirp_keeps_files (steps : list string) :
  forall (es es' : Entries) (t : list string) (c : list byte),
    mkdirp steps es = inr es' ->
    getNode t (Dir es) = Some (File c) ->
    getNode t (Dir es') = Some (File c).
Proof.
  induction steps as [|s steps IH]; intros es es' t c; simpl mkdirp.
  - intros H. now inversion H.
  - destruct t as [|s' r]; [discriminate|]. rewrite !getNode_cons.
    destruct (alist_get s es) as [[x|sub]|] eqn:Hs; [discriminate| |].
    + destruct (mkdirp steps sub) as [|sub'] eqn:Hm; [discriminate|].
      intros H. inversion H.
      destruct (String.eqb_spec s' s) as [->|Hne].
      * rewrite Hs, alist_get_set_same. now apply IH.
      * now rewrite alist_get_set_other.
    + destruct (mkdirp steps []) as [|sub'] eqn:Hm; [discriminate|].
      intros H. inversion H.
      destruct (String.eqb_spec s' s) as [->|Hne].
      * rewrite Hs. discriminate.
      * now rewrite alist_get_set_other.
Qed.

Lemma at_parent_write_keeps_files (e : errno) (d : list byte)
      (rest : list string) :
  forall (s : string) (es es' : Entries) (t : list string) (c : list byte),
    at_parent e (write_entry d) s rest es = inr es' ->
    t <> s :: rest ->
    getNode t (Dir es) = Some (File c) ->
    getNode t (Dir es') = Some (File c).
Proof.
  induction rest as [|s2 rest IH]; intros s es es' t c Hat Hne.
  - simpl in Hat. unfold write_entry in Hat.
    destruct t as [|s' r]; [discriminate|]. rewrite !getNode_cons.
    destruct (String.eqb_spec s' s) as [->|Hs].
    + destruct (alist_get s es) as [[x|sub]|].
      * intros H. apply getNode_file in H as [-> _]. contradiction.
      * discriminate Hat.
      * discriminate.
    + assert (Hes : es' = alist_set s (File d) es).
      { destruct (alist_get s es) as [[?|?]|]; now inversion Hat. }
      subst es'. now rewrite alist_get_set_other.
  - simpl in Hat.
    destruct (alist_get s es) as [[x|sub]|] eqn:Hs; try discriminate.
    destruct (at_parent e (write_entry d) s2 rest sub) as [|sub'] eqn:Hsub;
      [discriminate|].
    inversion Hat; subst es'.
    destruct t as [|s' r]; [discriminate|]. rewrite !getNode_cons.
    destruct (String.eqb_spec s' s) as [->|Hne'].
    + rewrite Hs, alist_get_set_same.
      apply IH with (s := s2) (es := sub); [assumption|].
      intros Heq. apply Hne. now rewrite Heq.
    + now rewrite alist_get_set_other.
Qed.

Lemma writeFileSync_keeps_files (v v' : Volume) (p p' : string)
      (d c : list byte) :
  writeFileSync v p d = inr v' ->
  filenameToSteps p' <> filenameToSteps p ->
  readFileSync v p' = inr c -> readFileSync v' p' = inr c.
Proof.
  unfold writeFileSync, readFileSync, getLink.
  destruct (filenameToSteps p) as [|s rest]; [discriminate|].
  intros Hw Hne Hr.
  destruct (getNode (filenameToSteps p') (Dir v)) as [[b|?]|] eqn:Hg;
    try discriminate.
  inversion Hr; subst b.
  now rewrite (at_parent_write_keeps_files _ _ _ _ _ _ _ _ Hw Hne Hg).
Qed.

Lemma mkdirSync_keeps_files (v v' : Volume) (p p' : string) (c : list byte) :
  mkdirSync v p true = inr v' ->
  readFileSync v p' = inr c -> readFileSync v' p' = inr c.
Proof.
  unfold mkdirSync, readFileSync, getLink. intros Hm Hr.
  destruct (getNode (filenameToSteps p') (Dir v)) as [[b|?]|] eqn:Hg;
    try discriminate.
  inversion Hr; subst b.
  now rewrite (mkdirp_keeps_files _ _ _ _ _ Hm Hg).
Qed.

(** Inside the directory that [ps] reaches, a failure of [f] is the
    failure of the whole operation. *)
Lemma at_parent_fails (e e' : errno)
      (f : string -> Entries -> errno + Entries)
      (name : string) (ps : list string) :
  forall (es sub : Entries),
    getNode ps (Dir es) = Some (Dir sub) ->
    f name sub = inl e' ->
    match ps ++ [name] with
    | [] => inl EISDIR
    | s :: rest => at_parent e f s rest es
    end = inl e'.
Proof.
  induction ps as [|p ps IH]; intros es sub Hget Hf.
  - simpl in *. now inversion Hget; subst.
  - rewrite getNode_cons in Hget.
    destruct (alist_get p es) as [c|] eqn:Hp; [|discriminate].
    destruct c as [b|esc].
    { apply getNode_file in Hget as [_ Habs]. discriminate. }
    pose proof (IH esc sub Hget Hf) as Hat.
    simpl app. destruct (ps ++ [name]) as [|s rest] eqn:Hs.
    + now destruct ps.
    + simpl. now rewrite Hp, Hat.
Qed.

(** The steps of the directory part when [close] does not call
    [mkdirSync]. *)
Lemma steps_trivial_dir (dir : string) :
  negb (String.eqb dir "") && negb (String.eqb dir "/") = false ->
  filenameToSteps dir = [].
Proof.
  destruct (String.eqb_spec dir "") as [->|_]; [reflexivity|].
  destruct (String.eqb_spec dir "/") as [->|_]; [reflexivity|discriminate].
Qed.

End VolumeUpdates.

(** [close] on an open stream, step by step. *)
Lemma close_resolves (w : World) :
  ws_closed (stream w) = false ->
  let p := ws_path (stream w) in
  let dir := JS.substring 0 (JS.lastIndexOf JS.slash p) p in
  close w =
    match mkdirp (filenameToSteps dir) (volume w) with
    | inl e => (Throw (FsError e), with_closed w true)
    | inr v1 =>
        match writeFileSync v1 p (ws_data (stream w)) with
        | inr v2 => (Ok tt, with_volume (with_closed w true) v2)
        | inl e => (Throw (FsError e), with_volume (with_closed w true) v1)
        end
    end.
Proof.
  intros Hopen p dir. unfold close. rewrite Hopen.
  change (ws_path (stream (with_closed w true))) with p.
  change (ws_data (stream (with_closed w true))) with (ws_data (stream w)).
  change (volume (with_closed w true)) with (volume w).
  fold dir.
  destruct (negb (String.eqb dir "") && negb (String.eqb dir "/")) eqn:Hg.
  - unfold mkdirSync.
    destruct (mkdirp (filenameToSteps dir) (volume w)) as [e|v1] eqn:Hm.
    + rewrite (mkdirp_error _ _ _ Hm). reflexivity.
    + reflexivity.
  - rewrite (steps_trivial_dir dir Hg). simpl mkdirp. cbv beta iota zeta.
    destruct (writeFileSync (volume w) p (ws_data (stream w))); reflexivity.
Qed.

(** ** Closing a stream: when it returns, what a failure leaves *)

(** When [close] returns on an open stream whose path ends in a proper
    entry name, and what it has done by then. *)
Lemma close_returns_iff (w : World) :
  ws_closed (stream w) = false ->
  valid_name (JS.pop_or_empty (JS.split JS.slash (ws_path (stream w)))) = true ->
  let p := ws_path (stream w) in
  let dir := JS.substring 0 (JS.lastIndexOf JS.slash p) p in
  (fst (close w) = Ok tt <->
     file_on_the_way (filenameToSteps dir) (Dir (volume w)) = false
     /\ forall st, statSync (volume w) p = inr st -> is_directory st = false)
  /\ (fst (close w) = Ok tt ->
      readFileSync (volume (snd (close w))) p = inr (ws_data (stream w))
      /\ statSync (volume (snd (close w))) dir = inr (mkStats true 0)).
Proof.
  intros Hopen Hname p dir.
  pose proof (steps_dirname p Hname) as Hsteps. fold dir in Hsteps.
  set (b := JS.pop_or_empty (JS.split JS.slash p)) in *.
  set (ds := filenameToSteps dir) in *.
  rewrite (close_resolves w Hopen). fold p dir ds.
  destruct (file_on_the_way ds (Dir (volume w))) eqn:Hway.
  { rewrite (mkdirp_blocked _ _ Hway). simpl.
    split; [split; [discriminate|intros [H _]; discriminate]|discriminate]. }
  destruct (mkdirp_clear _ _ Hway) as (v1 & Hmk). rewrite Hmk.
  destruct (mkdirp_reaches _ _ _ Hmk) as (sub & Hsub).
  pose proof (mkdirp_keeps_below b _ _ _ Hmk) as Hbelow.
  rewrite getNode_app, Hsub in Hbelow. simpl in Hbelow.
  assert (Hstat : forall n, getNode (ds ++ [b]) (Dir (volume w)) = n ->
                            statSync (volume w) p
                            = match n with
                              | Some x => inr (stats_of x)
                              | None => inl ENOENT
                              end).
  { intros n Hn. unfold statSync, getLink. now rewrite Hsteps, Hn. }
  destruct (alist_get b sub) as [[c|x]|] eqn:Hb.
  - (* an existing file *)
    destruct (writeFileSync_in_directory v1 p b ds sub (ws_data (stream w))
                Hsteps Hsub) as (v2 & Hw).
    { intros x. rewrite Hb. discriminate. }
    rewrite Hw. simpl. split.
    + split; [intros _|reflexivity]. split; [reflexivity|].
      intros st. rewrite (Hstat _ (eq_sym Hbelow)).
      intros H. now inversion H.
    + intros _. split; [now apply writeFileSync_read with (v := v1)|].
      unfold writeFileSync in Hw. rewrite Hsteps in Hw.
      destruct (at_parent_reaches ENOENT (write_entry (ws_data (stream w)))
                  b ds v1 sub (alist_set b (File (ws_data (stream w))) sub)
                  Hsub) as (v2' & Hat & Hdir).
      { unfold write_entry. now rewrite Hb. }
      assert (v2' = v2).
      { destruct (ds ++ [b]); [discriminate|]. congruence. }
      subst v2'. unfold statSync, getLink. fold ds. now rewrite Hdir.
  - (* a directory: EISDIR *)
    assert (Hw : writeFileSync v1 p (ws_data (stream w)) = inl EISDIR).
    { unfold writeFileSync. rewrite Hsteps.
      pose proof (at_parent_fails ENOENT EISDIR
                    (write_entry (ws_data (stream w))) b ds v1 sub Hsub)
        as Hf.
      destruct (ds ++ [b]) eqn:E; [now destruct ds|].
      apply Hf. unfold write_entry. now rewrite Hb. }
    rewrite Hw. simpl.
    split; [split; [discriminate|]|discriminate].
    intros [_ H]. specialize (H (stats_of (Dir x))).
    rewrite (Hstat _ (eq_sym Hbelow)) in H. now specialize (H eq_refl).
  - (* nothing there yet *)
    destruct (writeFileSync_in_directory v1 p b ds sub (ws_data (stream w))
                Hsteps Hsub) as (v2 & Hw).
    { intros x. rewrite Hb. discriminate. }
    rewrite Hw. simpl. split.
    + split; [intros _|reflexivity]. split; [reflexivity|].
      intros st. rewrite (Hstat _ (eq_sym Hbelow)). discriminate.
    + intros _. split; [now apply writeFileSync_read with (v := v1)|].
      unfold writeFileSync in Hw. rewrite Hsteps in Hw.
      destruct (at_parent_reaches ENOENT (write_entry (ws_data (stream w)))
                  b ds v1 sub (alist_set b (File (ws_data (stream w))) sub)
                  Hsub) as (v2' & Hat & Hdir).
      { unfold write_entry. now rewrite Hb. }
      assert (v2' = v2).
      { destruct (ds ++ [b]); [discriminate|]. congruence. }
      subst v2'. unfold statSync, getLink. fold ds. now rewrite Hdir.
Qed.

(** X5.  For an open stream whose path ends in a proper entry name,
    [close] returns exactly when no file lies on the way to the directory
    part of the path and the path is not itself a directory; it then has
    made the directory part (missing directories included) and the file
    holds the buffer. *)
Theorem close_returns_exactly_when (w : World) :
  ws_closed (stream w) = false ->
  valid_name (JS.pop_or_empty (JS.split JS.slash (ws_path (stream w)))) = true ->
  let p := ws_path (stream w) in
  let dir := JS.substring 0 (JS.lastIndexOf JS.slash p) p in
  (fst (close w) = Ok tt <->
     file_on_the_way (filenameToSteps dir) (Dir (volume w)) = false
     /\ forall st, statSync (volume w) p = inr st -> is_directory st = false)
  /\ (fst (close w) = Ok tt ->
      readFileSync (volume (snd (close w))) p = inr (ws_data (stream w))
      /\ statSync (volume (snd (close w))) dir = inr (mkStats true 0)).
Proof.
  intros Hopen Hname. exact (close_returns_iff w Hopen Hname).
Qed.

(** The stream of a file whose directories were all removed: [close]
    makes /gone/deep again and writes the file. *)
Lemma close_returns_exactly_when_witness :
  let w := {| volume := [];
              stream := {| ws_path := "/gone/deep/out.txt";
                           ws_data := [x01; x02];
                           ws_position := 2; ws_closed := false |} |} in
  fst (close w) = Ok tt
  /\ readFileSync (volume (snd (close w))) "/gone/deep/out.txt"
     = inr [x01; x02]
  /\ statSync (volume (snd (close w))) "/gone/deep" = inr (mkStats true 0).
Proof.
  intros w.
  destruct (close_returns_exactly_when w eq_refl eq_refl) as (Hiff & Hafter).
  assert (Hok : fst (close w) = Ok tt).
  { apply Hiff. split; [reflexivity|]. intros st H. discriminate H. }
  split; [exact Hok|]. exact (Hafter Hok).
Defined.

(** What a [close] that throws leaves. *)
Lemma close_failure (w w' : World) (e : exn) :
  ws_closed (stream w) = false ->
  valid_name (JS.pop_or_empty (JS.split JS.slash (ws_path (stream w)))) = true ->
  close w = (Throw e, w') ->
  w' = with_closed w true
  /\ (e = FsError ENOTDIR \/ e = FsError EISDIR)
  /\ forall v'', close (with_volume w' v'') = (Ok tt, with_volume w' v'').
Proof.
  intros Hopen Hname.
  set (p := ws_path (stream w)) in *.
  set (dir := JS.substring 0 (JS.lastIndexOf JS.slash p) p).
  pose proof (steps_dirname p Hname) as Hsteps. fold dir in Hsteps.
  set (b := JS.pop_or_empty (JS.split JS.slash p)) in *.
  set (ds := filenameToSteps dir) in *.
  rewrite (close_resolves w Hopen). fold p dir ds.
  assert (Hlater : forall v'',
             close (with_volume (with_closed w true) v'')
             = (Ok tt, with_volume (with_closed w true) v'')).
  { intros v''. reflexivity. }
  destruct (mkdirp ds (volume w)) as [e1|v1] eqn:Hmk.
  { intros H. inversion H; subst. rewrite (mkdirp_error _ _ _ Hmk). auto. }
  destruct (mkdirp_reaches _ _ _ Hmk) as (sub & Hsub).
  pose proof (mkdirp_keeps_below b _ _ _ Hmk) as Hbelow.
  rewrite getNode_app, Hsub in Hbelow. simpl in Hbelow.
  destruct (writeFileSync v1 p (ws_data (stream w))) as [e2|v2] eqn:Hw;
    [|discriminate].
  intros H. inversion H; subst e w'. clear H.
  destruct (alist_get b sub) as [[c|x]|] eqn:Hb.
  - destruct (writeFileSync_in_directory v1 p b ds sub (ws_data (stream w))
                Hsteps Hsub) as (v2 & Hw2); [|congruence].
    intros x. rewrite Hb. discriminate.
  - (* the path is a directory: it was one before, so nothing was made *)
    assert (Hexisting : exists sub0, getNode ds (Dir (volume w))
                                     = Some (Dir sub0)).
    { rewrite getNode_app in Hbelow.
      destruct (getNode ds (Dir (volume w))) as [[?|sub0]|];
        try discriminate. now exists sub0. }
    destruct Hexisting as (sub0 & Hsub0).
    rewrite (mkdirp_existing _ _ _ Hsub0) in Hmk. inversion Hmk; subst v1.
    assert (He : e2 = EISDIR).
    { unfold writeFileSync in Hw. rewrite Hsteps in Hw.
      pose proof (at_parent_fails ENOENT EISDIR
                    (write_entry (ws_data (stream w))) b ds (volume w) sub
                    Hsub) as Hf.
      destruct (ds ++ [b]) eqn:E; [now destruct ds|].
      rewrite Hf in Hw; [now inversion Hw|].
      unfold write_entry. now rewrite Hb. }
    subst e2. split; [|split; [now right|exact Hlater]].
    unfold with_volume, with_closed. reflexivity.
  - destruct (writeFileSync_in_directory v1 p b ds sub (ws_data (stream w))
                Hsteps Hsub) as (v2 & Hw2); [|congruence].
    intros x. rewrite Hb. discriminate.
Qed.

(** X6.  When [close] throws on an open stream whose path ends in a proper
    entry name, the volume is exactly as before, the error is the volume's
    ENOTDIR or EISDIR, and the stream is closed all the same: a later
    [close] returns at once and publishes nothing, whatever the volume has
    become. *)
Theorem failed_close_leaves_volume_and_closes (w w' : World) (e : exn) :
  ws_closed (stream w) = false ->
  valid_name (JS.pop_or_empty (JS.split JS.slash (ws_path (stream w)))) = true ->
  close w = (Throw e, w') ->
  w' = with_closed w true
  /\ (e = FsError ENOTDIR \/ e = FsError EISDIR)
  /\ forall v'', close (with_volume w' v'') = (Ok tt, with_volume w' v'').
Proof.
  intros Hopen Hname Hthrow. exact (close_failure w w' e Hopen Hname Hthrow).
Qed.

(** A stream for /tmp/x, whose place has been taken by a directory
    when it is closed. *)
Lemma failed_close_leaves_volume_and_closes_witness :
  let v := [("tmp", Dir [("x", Dir [])])] in
  let w := {| volume := v;
              stream := {| ws_path := "/tmp/x"; ws_data := [x01];
                           ws_position := 1; ws_closed := false |} |} in
  snd (close w) = with_closed w true
  /\ (fst (close w) = Throw (FsError ENOTDIR)
      \/ fst (close w) = Throw (FsError EISDIR)).
Proof.
  intros v w.
  destruct (failed_close_leaves_volume_and_closes
              w (snd (close w)) (FsError EISDIR) eq_refl eq_refl eq_refl)
    as (Hw & _ & _).
  split; [exact Hw|]. right. reflexivity.
Defined.

(** ** What the operations leave alone *)

(** X7.  [close] changes the content of no other file: a file that could
    be read before at a path resolving elsewhere than the stream's path
    reads the same afterwards, whether [close] returned or threw. *)
Theorem close_keeps_other_files (w : World) (p' : string) (c : list byte) :
  readFileSync (volume w) p' = inr c ->
  filenameToSteps p' <> filenameToSteps (ws_path (stream w)) ->
  readFileSync (volume (snd (close w))) p' = inr c.
Proof.
  intros Hread Hother.
  destruct (ws_closed (stream w)) eqn:Hc.
  { unfold close. now rewrite Hc. }
  rewrite (close_resolves w Hc).
  destruct (mkdirp _ (volume w)) as [e|v1] eqn:Hmk; [assumption|].
  assert (Hread1 : readFileSync v1 p' = inr c).
  { unfold readFileSync, getLink in *.
    destruct (getNode (filenameToSteps p') (Dir (volume w))) as [[x|?]|] eqn:Hg;
      try discriminate.
    inversion Hread; subst x.
    now rewrite (mkdirp_keeps_files _ _ _ _ _ Hmk Hg). }
  destruct (writeFileSync v1 _ _) as [e|v2] eqn:Hw; simpl; [assumption|].
  now apply (writeFileSync_keeps_files v1 v2 _ p' _ c Hw).
Qed.

Lemma close_keeps_other_files_witness :
  let v := snd createMemoryFileSystem in
  let w := {| volume := v;
              stream := {| ws_path := "/sandbox/input.txt"; ws_data := [x01];
                           ws_position := 1; ws_closed := false |} |} in
  readFileSync (volume (snd (close w))) "/sandbox/input2.txt"
  = inr (utf8 "hello from input2.txt" ++ [x0a]).
Proof.
  intros v w. apply (close_keeps_other_files w).
  - reflexivity.
  - vm_compute. discriminate.
Defined.

(** X8.  [getFileHandle] and [getDirectoryHandle] never change the content
    of a file that exists, whatever the name and the [create] option. *)
Theorem opening_keeps_files (this : MemfsDirectoryHandle) (name : string)
        (create : option bool) (v : Volume) (p' : string) (c : list byte) :
  readFileSync v p' = inr c ->
  readFileSync (snd (getFileHandle this name create v)) p' = inr c
  /\ readFileSync (snd (getDirectoryHandle this name create v)) p' = inr c.
Proof.
  intros Hread.
  unfold getFileHandle, getDirectoryHandle, try_catch, bind, vol_read,
    vol_update, throw, ret.
  set (p := child_path this name).
  destruct (statSync v p) as [e|st] eqn:Hst.
  - assert (He : e = ENOENT).
    { unfold statSync in Hst. destruct (getLink v p); now inversion Hst. }
    subst e. simpl. destruct (JS.truthy create); [|auto].
    assert (Hother : filenameToSteps p' <> filenameToSteps p).
    { intros Heq. unfold statSync, readFileSync, getLink in *.
      rewrite Heq in Hread.
      destruct (getNode (filenameToSteps p) (Dir v)); discriminate. }
    split.
    + destruct (writeFileSync v p []) as [e|v'] eqn:Hw; [exact Hread|].
      exact (writeFileSync_keeps_files v v' p p' [] c Hw Hother Hread).
    + destruct (mkdirp (filenameToSteps p) v) as [e|v'] eqn:Hm;
        [exact Hread|].
      exact (mkdirSync_keeps_files v v' p p' c Hm Hread).
  - simpl. destruct (is_directory st); simpl; auto.
Qed.

Lemma opening_keeps_files_witness :
  let v := snd createMemoryFileSystem in
  let sandbox := {| dh_path := "/sandbox" |} in
  readFileSync (snd (getFileHandle sandbox "new.txt" (Some true) v))
               "/sandbox/input.txt"
  = inr (utf8 "hello from input.txt" ++ [x0a])
  /\ readFileSync (snd (getDirectoryHandle sandbox "newdir" (Some true) v))
                  "/sandbox/input.txt"
     = inr (utf8 "hello from input.txt" ++ [x0a]).
Proof.
  intros v sandbox. split.
  - apply (opening_keeps_files sandbox "new.txt" (Some true) v). reflexivity.
  - apply (opening_keeps_files sandbox "newdir" (Some true) v). reflexivity.
Defined.

(** ** Handles: names, enumeration and errors *)

Section HandleNames.

Lemma child_path_split (this : MemfsDirectoryHandle) (name : string) :
  JS.lastIndexOf JS.slash name < 0 ->
  exists front, JS.split JS.slash (child_path this name) = front ++ [name].
Proof.
  intros Hns. unfold child_path.
  destruct (String.eqb (dh_path this) "/").
  - exists [""].
    change ("/" ++ name)%string with ("" ++ String JS.slash name)%string.
    now rewrite split_join, (split_without_sep _ name).
  - exists (JS.split JS.slash (dh_path this)).
    change (dh_path this ++ "/" ++ name)%string
      with (dh_path this ++ String JS.slash name)%string.
    now rewrite split_join, (split_without_sep _ name).
Qed.

Lemma child_name (this : MemfsDirectoryHandle) (name : string) :
  JS.lastIndexOf JS.slash name < 0 ->
  JS.pop_or_empty (JS.split JS.slash (child_path this name)) = name.
Proof.
  intros Hns. destruct (child_path_split this name Hns) as (front & ->).
  apply last_last.
Qed.

Lemma getFileHandle_path (this : MemfsDirectoryHandle) (name : string)
      (create : option bool) (v v' : Volume) (h : MemfsFileHandle) :
  getFileHandle this name create v = (Ok h, v') ->
  h = {| fh_path := child_path this name |}.
Proof.
  unfold getFileHandle, try_catch, bind, vol_read, vol_update, throw, ret.
  destruct (statSync v (child_path this name)) as [e|st].
  - destruct (has_code (FsError e) ENOENT); [|discriminate].
    destruct (JS.truthy create); [|discriminate].
    destruct (writeFileSync v _ _); [discriminate|].
    intros H. now inversion H.
  - destruct (is_directory st); [discriminate|].
    intros H. now inversion H.
Qed.

Lemma getDirectoryHandle_path (this : MemfsDirectoryHandle) (name : string)
      (create : option bool) (v v' : Volume) (h : MemfsDirectoryHandle) :
  getDirectoryHandle this name create v = (Ok h, v') ->
  h = {| dh_path := child_path this name |}.
Proof.
  unfold getDirectoryHandle, try_catch, bind, vol_read, vol_update, throw, ret.
  destruct (statSync v (child_path this name)) as [e|st].
  - destruct (has_code (FsError e) ENOENT); [|discriminate].
    destruct (JS.truthy create); [|discriminate].
    destruct (mkdirSync v _ _); [discriminate|].
    intros H. now inversion H.
  - destruct (negb (is_directory st)); [discriminate|].
    intros H. now inversion H.
Qed.

Lemma alist_get_in (k : string) (es : Entries) :
  In k (map fst es) -> exists n, alist_get k es = Some n.
Proof.
  induction es as [|[k' n'] r IH]; simpl; [contradiction|].
  destruct (String.eqb_spec k k') as [->|Hne].
  - intros _. now exists n'.
  - intros [Heq|Hin]; [congruence|now apply IH].
Qed.

End HandleNames.

(** X9.  A handle returned by [getFileHandle(name)] or
    [getDirectoryHandle(name)] for a name without '/' has that name as its
    [name], and its path is the path of the directory handle extended by
    the name. *)
Theorem child_handle_has_the_name (this : MemfsDirectoryHandle)
        (name : string) (create : option bool) (v : Volume) :
  JS.lastIndexOf JS.slash name < 0 ->
  (forall h v', getFileHandle this name create v = (Ok h, v') ->
                fh_name h = name /\ fh_path h = child_path this name)
  /\ (forall h v', getDirectoryHandle this name create v = (Ok h, v') ->
                   dh_name h = name /\ dh_path h = child_path this name).
Proof.
  intros Hns. split; intros h v' H.
  - apply getFileHandle_path in H. subst h. unfold fh_name. simpl.
    split; [now apply child_name|reflexivity].
  - apply getDirectoryHandle_path in H. subst h. unfold dh_name. simpl.
    split; [now apply child_name|reflexivity].
Qed.

Lemma child_handle_has_the_name_witness :
  let v := snd createMemoryFileSystem in
  let h := {| fh_path := "/sandbox/input.txt" |} in
  fh_name h = "input.txt"
  /\ fh_path h = child_path {| dh_path := "/sandbox" |} "input.txt".
Proof.
  intros v h.
  apply (proj1 (child_handle_has_the_name {| dh_path := "/sandbox" |}
                  "input.txt" None v ltac:(vm_compute; reflexivity)) h v).
  reflexivity.
Defined.

(** X10.  For a directory whose entries have proper names, [values] yields
    one handle per name that [keys] yields, in the same order and without
    throwing: the handle's path is the directory's path extended by the
    name, its [name] is that name, and its kind is the kind the volume
    reports for that path. *)
Theorem values_follow_keys (this : MemfsDirectoryHandle) (v : Volume)
        (names : list string) :
  readdirSync v (dh_path this) = inr names ->
  Forall (fun n => valid_name n = true) names ->
  let g := fst (values this v) in
  fst (keys this v) = {| yielded := names; thrown := None |}
  /\ thrown g = None
  /\ map handle_path (yielded g) = map (child_path this) names
  /\ map handle_name (yielded g) = names
  /\ Forall (fun h => exists st,
                 statSync v (handle_path h) = inr st
                 /\ is_directory st = is_directory_kind (handle_kind h))
            (yielded g).
Proof.
  intros Hls Hvalid g.
  assert (Hdir : exists es, getLink v (dh_path this) = Some (Dir es)
                            /\ names = map fst es).
  { unfold readdirSync in Hls.
    destruct (getLink v (dh_path this)) as [[?|es]|]; try discriminate.
    exists es. split; [reflexivity|]. now inversion Hls. }
  destruct Hdir as (es & Hes & Hnames).
  assert (Hloop : forall l,
             incl l names -> Forall (fun n => valid_name n = true) l ->
             let r := values_loop this l v in
             thrown r = None
             /\ map handle_path (yielded r) = map (child_path this) l
             /\ map handle_name (yielded r) = l
             /\ Forall (fun h => exists st,
                            statSync v (handle_path h) = inr st
                            /\ is_directory st
                               = is_directory_kind (handle_kind h))
                       (yielded r)).
  { induction l as [|n l IH]; intros Hincl Hl.
    - simpl. repeat split; constructor.
    - pose proof (Forall_inv Hl) as Hn. pose proof (Forall_inv_tail Hl) as Hl'.
      destruct (IH (fun x Hx => Hincl x (or_intror Hx)) Hl')
        as (I1 & I2 & I3 & I4).
      assert (Hin : In n (map fst es))
        by (rewrite <- Hnames; apply Hincl; now left).
      destruct (alist_get_in n es Hin) as (node & Hnode).
      pose proof (valid_name_spec n Hn) as (_ & _ & _ & Hns).
      assert (Hst : statSync v (child_path this n) = inr (stats_of node)).
      { unfold statSync, getLink. rewrite (steps_child_path this n Hn).
        unfold getLink in Hes. rewrite getNode_app, Hes. simpl.
        now rewrite Hnode. }
      simpl. rewrite Hst.
      destruct (is_directory (stats_of node)) eqn:Hk; simpl;
        (split; [assumption|]);
        (split; [now rewrite I2|]);
        (split; [unfold dh_name, fh_name; simpl;
                 now rewrite (child_name this n Hns), I3|]);
        constructor; try assumption;
        exists (stats_of node); simpl; auto. }
  unfold g, values, keys. rewrite Hls. simpl fst.
  destruct (Hloop names (incl_refl _) Hvalid) as (L1 & L2 & L3 & L4).
  unfold rethrow_not_found. simpl. rewrite L1. auto.
Qed.

Lemma values_follow_keys_witness :
  let v := snd createMemoryFileSystem in
  let root := {| dh_path := "/" |} in
  map handle_name (yielded (fst (values root v))) = ["sandbox"; "tmp"]
  /\ thrown (fst (values root v)) = None.
Proof.
  intros v root.
  destruct (values_follow_keys root v ["sandbox"; "tmp"] eq_refl)
    as (_ & Hthrown & _ & Hnames & _).
  - repeat constructor.
  - split; [exact Hnames|exact Hthrown].
Defined.

(** X11.  Enumerating a handle whose path does not exist ends with the
    DOMException NotFoundError before anything is yielded; enumerating a
    handle whose path is a file lets the volume's ENOTDIR escape as it
    is.  Neither touches the volume. *)
Theorem enumerating_a_missing_or_file_path
        (this : MemfsDirectoryHandle) (v : Volume) :
  (statSync v (dh_path this) = inl ENOENT ->
   keys this v
   = ({| yielded := [];
         thrown := Some (DOMException "Directory not found" NotFoundError) |},
      v)
   /\ values this v
      = ({| yielded := [];
            thrown := Some (DOMException "Directory not found" NotFoundError) |},
         v))
  /\ (forall st,
        statSync v (dh_path this) = inr st -> is_directory st = false ->
        keys this v
        = ({| yielded := []; thrown := Some (FsError ENOTDIR) |}, v)
        /\ values this v
           = ({| yielded := []; thrown := Some (FsError ENOTDIR) |}, v)).
Proof.
  unfold keys, values, readdirSync, statSync. split.
  - destruct (getLink v (dh_path this)) as [n|]; [discriminate|].
    intros _. split; reflexivity.
  - intros st. destruct (getLink v (dh_path this)) as [[b|es]|];
      try discriminate.
    + intros _ _. split; reflexivity.
    + intros H Hk. inversion H; subst. discriminate.
Qed.

Lemma enumerating_a_missing_or_file_path_witness :
  let v := snd createMemoryFileSystem in
  fst (keys {| dh_path := "/nowhere" |} v)
  = {| yielded := [];
       thrown := Some (DOMException "Directory not found" NotFoundError) |}
  /\ fst (keys {| dh_path := "/sandbox/notadir" |} v)
     = {| yielded := []; thrown := Some (FsError ENOTDIR) |}.
Proof.
  intros v. split.
  - destruct (proj1 (enumerating_a_missing_or_file_path
                       {| dh_path := "/nowhere" |} v) eq_refl) as (H & _).
    now rewrite H.
  - destruct (proj2 (enumerating_a_missing_or_file_path
                       {| dh_path := "/sandbox/notadir" |} v)
                    (mkStats false 0) eq_refl eq_refl) as (H & _).
    now rewrite H.
Defined.

(** X12.  When the path of a file handle is a file, [getFile] returns its
    bytes and its name, and [createWritable] returns a stream that holds
    the content of the file with the cursor at its end when
    [keepExistingData] is truthy, and an empty stream when it is not.
    When the path does not exist, [getFile] throws the DOMException
    NotFoundError and [createWritable] returns an empty stream.  When the
    path is a directory, the volume's EISDIR escapes from [getFile] as it
    is, and from [createWritable] with a truthy [keepExistingData], the
    one case of the three in which [createWritable] throws; without it
    [createWritable] returns an empty stream.  None of them changes the
    volume. *)
Theorem getFile_and_createWritable_by_kind
        (this : MemfsFileHandle) (keep : option bool) (v : Volume) :
  let p := fh_path this in
  (forall c, readFileSync v p = inr c ->
     getFile this v = (Ok {| file_bits := c; file_name := fh_name this |}, v)
     /\ createWritable this keep v
        = (Ok (if JS.truthy keep
               then {| ws_path := p; ws_data := c;
                       ws_position := JS.len c; ws_closed := false |}
               else fresh_stream p), v))
  /\ (statSync v p = inl ENOENT ->
      getFile this v = (Throw (DOMException "File not found" NotFoundError), v)
      /\ createWritable this keep v = (Ok (fresh_stream p), v))
  /\ (forall st, statSync v p = inr st -> is_directory st = true ->
      getFile this v = (Throw (FsError EISDIR), v)
      /\ createWritable this keep v
         = if JS.truthy keep then (Throw (FsError EISDIR), v)
           else (Ok (fresh_stream p), v)).
Proof.
  intros p. split.
  { intros c Hc. split; [now apply getFile_of_file|].
    unfold createWritable, new_MemfsWritableFileStream, try_catch, bind,
      vol_read, ret. fold p.
    destruct (JS.truthy keep); [|reflexivity]. now rewrite Hc. }
  unfold getFile, createWritable, new_MemfsWritableFileStream, try_catch,
    bind, vol_read, throw, ret. fold p.
  destruct (JS.truthy keep); cbv beta; unfold readFileSync, statSync;
    (split; [|intros st]);
    destruct (getLink v p) as [[b|es]|]; try discriminate;
    try (intros _; split; reflexivity);
    try (intros _ _; split; reflexivity);
    intros H Hk; inversion H; subst; discriminate.
Qed.

Lemma getFile_and_createWritable_by_kind_witness :
  let v := snd createMemoryFileSystem in
  getFile {| fh_path := "/sandbox/gone.txt" |} v
  = (Throw (DOMException "File not found" NotFoundError), v)
  /\ getFile {| fh_path := "/tmp" |} v = (Throw (FsError EISDIR), v)
  /\ createWritable {| fh_path := "/tmp" |} (Some true) v
     = (Throw (FsError EISDIR), v)
  /\ createWritable {| fh_path := "/sandbox/input.txt" |} (Some true) v
     = (Ok {| ws_path := "/sandbox/input.txt";
              ws_data := utf8 "hello from input.txt" ++ [x0a];
              ws_position := 21; ws_closed := false |}, v).
Proof.
  intros v.
  pose proof (getFile_and_createWritable_by_kind
                {| fh_path := "/sandbox/gone.txt" |} None v)
    as (_ & Hmissing & _).
  pose proof (getFile_and_createWritable_by_kind
                {| fh_path := "/tmp" |} (Some true) v) as (_ & _ & Hdir).
  pose proof (getFile_and_createWritable_by_kind
                {| fh_path := "/sandbox/input.txt" |} (Some true) v)
    as (Hfile & _).
  split; [exact (proj1 (Hmissing eq_refl))|].
  split; [exact (proj1 (Hdir (mkStats true 0) eq_refl eq_refl))|].
  split; [exact (proj2 (Hdir (mkStats true 0) eq_refl eq_refl))|].
  exact (proj2 (Hfile (utf8 "hello from input.txt" ++ [x0a]) eq_refl)).
Defined.

(** ** Removing and creating entries *)

Section EntryUpdates.

Lemma alist_get_remove_same (k : string) (es : Entries) :
  alist_get k (alist_remove k es) = None.
Proof.
  unfold alist_remove. induction es as [|[k' n'] r IH]; simpl; [reflexivity|].
  destruct (String.eqb k k') eqn:E; simpl; [assumption|].
  now rewrite E.
Qed.

Lemma map_fst_remove (k : string) (es : Entries) :
  map fst (alist_remove k es)
  = filter (fun n => negb (String.eqb k n)) (map fst es).
Proof.
  unfold alist_remove. induction es as [|[k' n'] r IH]; simpl; [reflexivity|].
  destruct (String.eqb k k'); simpl; now rewrite IH.
Qed.

Lemma alist_set_fresh (k : string) (n : Node) (es : Entries) :
  alist_get k es = None -> alist_set k n es = es ++ [(k, n)].
Proof.
  induction es as [|[k' n'] r IH]; simpl; [reflexivity|].
  destruct (String.eqb k k'); [discriminate|].
  intros H. now rewrite IH.
Qed.

Lemma alist_remove_fresh (k : string) (es : Entries) :
  alist_get k es = None -> alist_remove k es = es.
Proof.
  unfold alist_remove. induction es as [|[k' n'] r IH]; simpl; [reflexivity|].
  destruct (String.eqb k k'); [discriminate|].
  intros H. simpl. now rewrite IH.
Qed.

Lemma alist_remove_set_fresh (k : string) (n : Node) (es : Entries) :
  alist_get k es = None -> alist_remove k (alist_set k n es) = es.
Proof.
  intros H. rewrite (alist_set_fresh k n es H).
  unfold alist_remove. rewrite filter_app. simpl.
  rewrite String.eqb_refl. simpl. rewrite app_nil_r.
  now apply alist_remove_fresh.
Qed.

Lemma alist_set_set_back (k : string) (n m : Node) (es : Entries) :
  alist_get k es = Some n -> alist_set k n (alist_set k m es) = es.
Proof.
  induction es as [|[k' n'] r IH]; simpl; [discriminate|].
  destruct (String.eqb k k') eqn:E; simpl; rewrite E.
  - intros H. now inversion H.
  - intros H. now rewrite IH.
Qed.

(** A path with a last step is not the root, whatever the operation
    answers for the root. *)
Lemma snoc_not_root {A : Type} (X Y : A) (F : string -> list string -> A)
      (ps : list string) (name : string) :
  match ps ++ [name] with [] => X | s :: rest => F s rest end
  = match ps ++ [name] with [] => Y | s :: rest => F s rest end.
Proof. now destruct ps. Qed.

(** Removing what a path names: it is gone afterwards. *)
Lemma at_parent_removes (e : errno) (f : string -> Entries -> errno + Entries)
      (n : Node) (rest : list string) :
  (forall s0 es0, alist_get s0 es0 = Some n ->
                  f s0 es0 = inr (alist_remove s0 es0)) ->
  forall (s : string) (es : Entries),
    getNode (s :: rest) (Dir es) = Some n ->
    exists es', at_parent e f s rest es = inr es'
                /\ getNode (s :: rest) (Dir es') = None.
Proof.
  intros Hf. induction rest as [|s2 rest IH]; intros s es; rewrite getNode_cons.
  - destruct (alist_get s es) as [c|] eqn:Hs; [|discriminate].
    simpl. intros H. inversion H; subst c.
    exists (alist_remove s es). split; [now apply Hf|].
    now rewrite alist_get_remove_same.
  - destruct (alist_get s es) as [[b|sub]|] eqn:Hs; try discriminate.
    intros H. destruct (IH s2 sub H) as (sub' & Hat & Hgone).
    exists (alist_set s (Dir sub') es). simpl at_parent. rewrite Hs, Hat.
    split; [reflexivity|].
    now rewrite getNode_cons, alist_get_set_same.
Qed.

(** The listing of the directory in which an entry was removed or set. *)
Lemma at_parent_in_directory (e : errno)
      (f : string -> Entries -> errno + Entries)
      (name : string) (ps : list string) (es es' sub sub' : Entries)
      (X : errno + Entries) :
  getNode ps (Dir es) = Some (Dir sub) ->
  f name sub = inr sub' ->
  match ps ++ [name] with [] => X | s :: rest => at_parent e f s rest es end
  = inr es' ->
  getNode ps (Dir es') = Some (Dir sub').
Proof.
  intros Hget Hf Hat.
  destruct (at_parent_reaches e f name ps es sub sub' Hget Hf)
    as (es'' & Hat' & Hget').
  rewrite (snoc_not_root X (inl EISDIR)) in Hat. congruence.
Qed.

(** Undoing inside a directory what was just done there. *)
Lemma at_parent_undo (e e' : errno)
      (f g : string -> Entries -> errno + Entries)
      (name : string) (ps : list string) :
  forall (es sub sub1 : Entries),
    getNode ps (Dir es) = Some (Dir sub) ->
    f name sub = inr sub1 ->
    g name sub1 = inr sub ->
    exists es1,
      match ps ++ [name] with
      | [] => inl EISDIR
      | s :: rest => at_parent e f s rest es
      end = inr es1
      /\ match ps ++ [name] with
         | [] => inl EISDIR
         | s :: rest => at_parent e' g s rest es1
         end = inr es.
Proof.
  induction ps as [|p ps IH]; intros es sub sub1 Hget Hf Hg.
  - simpl in *. inversion Hget; subst sub. now exists sub1.
  - rewrite getNode_cons in Hget.
    destruct (alist_get p es) as [c|] eqn:Hp; [|discriminate].
    destruct c as [b|esc].
    { apply getNode_file in Hget as [_ Habs]. discriminate. }
    destruct (IH esc sub sub1 Hget Hf Hg) as (esc1 & Hat & Hback).
    exists (alist_set p (Dir esc1) es).
    simpl app. destruct (ps ++ [name]) as [|s rest] eqn:Hs.
    + now destruct ps.
    + simpl. rewrite Hp, Hat. split; [reflexivity|].
      rewrite alist_get_set_same, Hback.
      now rewrite alist_set_set_back.
Qed.

(** Making one missing directory: the recursive [mkdirSync] does what the
    plain one does. *)
Lemma mkdirp_one_level (name : string) (ps : list string) :
  forall (es sub : Entries),
    getNode ps (Dir es) = Some (Dir sub) ->
    alist_get name sub = None ->
    mkdirp (ps ++ [name]) es
    = match ps ++ [name] with
      | [] => inl EISDIR
      | s :: rest => at_parent ENOTDIR mkdir_entry s rest es
      end.
Proof.
  induction ps as [|p ps IH]; intros es sub Hget Hfresh.
  - simpl in *. inversion Hget; subst sub.
    unfold mkdir_entry. now rewrite Hfresh.
  - rewrite getNode_cons in Hget.
    destruct (alist_get p es) as [c|] eqn:Hp; [|discriminate].
    destruct c as [b|esc].
    { apply getNode_file in Hget as [_ Habs]. discriminate. }
    pose proof (IH esc sub Hget Hfresh) as Hrec.
    simpl app. simpl mkdirp. rewrite Hp, Hrec.
    destruct (ps ++ [name]) as [|s rest] eqn:Hs.
    + now destruct ps.
    + simpl. now rewrite Hp.
Qed.

End EntryUpdates.

(** X13.  For an entry that exists and is not the root, [removeEntry]
    returns exactly when the entry is a file, or an empty directory, or
    [recursive] is truthy; the path of the entry then no longer exists.
    In the one case left, a populated directory without [recursive], it
    throws InvalidModificationError and the volume is as before: no error
    of the volume escapes. *)
Theorem removeEntry_outcomes (this : MemfsDirectoryHandle) (name : string)
        (recursive : option bool) (v : Volume) (st : Stats) :
  let p := child_path this name in
  let r := removeEntry this name recursive v in
  filenameToSteps p <> [] ->
  statSync v p = inr st ->
  (fst r = Ok tt
   <-> is_directory st = false \/ JS.truthy recursive = true
       \/ readdirSync v p = inr [])
  /\ (fst r = Ok tt -> statSync (snd r) p = inl ENOENT)
  /\ (fst r <> Ok tt ->
      r = (Throw (DOMException "Directory not empty"
                               InvalidModificationError), v)).
Proof.
  intros p r Hroot Hst.
  assert (Hgone : forall v', getNode (filenameToSteps p) (Dir v') = None ->
                             statSync v' p = inl ENOENT).
  { intros v' H. unfold statSync, getLink. now rewrite H. }
  unfold r, removeEntry, try_catch, bind, vol_read, vol_update, throw.
  fold p. rewrite Hst.
  unfold statSync, getLink in Hst. unfold readdirSync, getLink.
  destruct (filenameToSteps p) as [|s rest] eqn:Hsteps; [contradiction|].
  destruct (getNode (s :: rest) (Dir v)) as [[b|es]|] eqn:Hg;
    [| |discriminate]; inversion Hst; subst st; cbn [is_directory stats_of].
  - (* a file *)
    unfold unlinkSync. rewrite Hsteps.
    destruct (at_parent_removes ENOENT unlink_entry (File b) rest) with
      (s := s) (es := v) as (v' & Hat & Hnone); [|assumption|].
    { intros s0 es0 H0. unfold unlink_entry. now rewrite H0. }
    rewrite Hat. cbn [fst snd].
    split; [split; auto|]. split; [intros _; now apply Hgone|].
    intros H. now destruct H.
  - (* a directory *)
    destruct (JS.truthy recursive) eqn:Hrec.
    + unfold rmSync_rf. rewrite Hsteps.
      destruct (at_parent_removes ENOENT rm_entry (Dir es) rest) with
        (s := s) (es := v) as (v' & Hat & Hnone); [|assumption|].
      { intros s0 es0 H0. reflexivity. }
      rewrite Hat. cbn [fst snd].
      split; [split; auto|]. split; [intros _; now apply Hgone|].
      intros H. now destruct H.
    + destruct es as [|x xs].
      * unfold rmdirSync. rewrite Hsteps.
        destruct (at_parent_removes ENOENT rmdir_entry (Dir []) rest)
          with (s := s) (es := v) as (v' & Hat & Hnone); [|assumption|].
        { intros s0 es0 H0. unfold rmdir_entry. now rewrite H0. }
        rewrite Hat. cbn [fst snd].
        split; [split; auto|]. split; [intros _; now apply Hgone|].
        intros H. now destruct H.
      * rewrite (rmdirSync_populated v p x xs)
          by (unfold getLink; now rewrite Hsteps).
        cbn. split; [|split; [discriminate|reflexivity]].
        split; [discriminate|].
        intros [H|[H|H]]; discriminate.
Qed.

Lemma removeEntry_outcomes_witness :
  let v := snd createMemoryFileSystem in
  fst (removeEntry {| dh_path := "/" |} "sandbox" (Some true) v) = Ok tt
  /\ fst (removeEntry {| dh_path := "/sandbox" |} "notadir" None v) = Ok tt
  /\ fst (removeEntry {| dh_path := "/" |} "tmp" None v) = Ok tt
  /\ statSync (snd (removeEntry {| dh_path := "/" |} "tmp" None v)) "/tmp"
     = inl ENOENT
  /\ removeEntry {| dh_path := "/" |} "sandbox" None v
     = (Throw (DOMException "Directory not empty" InvalidModificationError),
        v).
Proof.
  intros v.
  destruct (removeEntry_outcomes {| dh_path := "/" |} "sandbox" (Some true) v
              (mkStats true 0)) as (Hrec & _ & _);
    [vm_compute; discriminate|reflexivity|].
  destruct (removeEntry_outcomes {| dh_path := "/sandbox" |} "notadir" None v
              (mkStats false 0)) as (Hfile & _ & _);
    [vm_compute; discriminate|reflexivity|].
  destruct (removeEntry_outcomes {| dh_path := "/" |} "tmp" None v
              (mkStats true 0)) as (Hempty & Hgone & _);
    [vm_compute; discriminate|reflexivity|].
  destruct (removeEntry_outcomes {| dh_path := "/" |} "sandbox" None v
              (mkStats true 0)) as (_ & _ & Hfull);
    [vm_compute; discriminate|reflexivity|].
  split; [apply Hrec; right; left; reflexivity|].
  split; [apply Hfile; left; reflexivity|].
  assert (Hok : fst (removeEntry {| dh_path := "/" |} "tmp" None v) = Ok tt)
    by (apply Hempty; right; right; reflexivity).
  split; [exact Hok|]. split; [exact (Hgone Hok)|].
  apply Hfull. vm_compute. discriminate.
Defined.

Section EntriesOfADirectory.

Variables (this : MemfsDirectoryHandle) (name : string) (v : Volume).
Hypothesis name_valid : valid_name name = true.

Let p := child_path this name.
Let ps := filenameToSteps (dh_path this).

Lemma entry_steps : filenameToSteps p = ps ++ [name].
Proof. apply steps_child_path. exact name_valid. Qed.

Lemma listed_directory (names : list string) :
  readdirSync v (dh_path this) = inr names ->
  exists sub, getNode ps (Dir v) = Some (Dir sub) /\ names = map fst sub.
Proof.
  unfold readdirSync, getLink. fold ps.
  destruct (getNode ps (Dir v)) as [[?|sub]|]; try discriminate.
  intros H. exists sub. split; [reflexivity|]. now inversion H.
Qed.

Lemma entry_node (sub : Entries) :
  getNode ps (Dir v) = Some (Dir sub) ->
  getLink v p = alist_get name sub.
Proof.
  intros Hsub. unfold getLink. rewrite entry_steps, getNode_app, Hsub.
  simpl. now destruct (alist_get name sub).
Qed.

(** Creating the missing entry [name] of a directory that exists: the
    volume after [writeFileSync], respectively [mkdirSync], has the entry
    in that directory (the last one, in the order the model keeps), and
    removing the entry gives the volume back. *)
Lemma create_in_directory (sub : Entries) :
  getNode ps (Dir v) = Some (Dir sub) ->
  alist_get name sub = None ->
  (exists v1, writeFileSync v p [] = inr v1
              /\ getNode ps (Dir v1) = Some (Dir (sub ++ [(name, File [])]))
              /\ unlinkSync v1 p = inr v)
  /\ (exists v2, mkdirSync v p true = inr v2
                 /\ getNode ps (Dir v2) = Some (Dir (sub ++ [(name, Dir [])]))
                 /\ rmdirSync v2 p = inr v).
Proof.
  intros Hsub Hfresh. split.
  - destruct (at_parent_undo ENOENT ENOENT (write_entry []) unlink_entry
                name ps v sub (alist_set name (File []) sub) Hsub)
      as (v1 & Hw & Hu).
    { unfold write_entry. now rewrite Hfresh. }
    { unfold unlink_entry. rewrite alist_get_set_same.
      now rewrite alist_remove_set_fresh. }
    exists v1. unfold writeFileSync, unlinkSync. rewrite entry_steps.
    split; [exact Hw|]. split; [|exact Hu].
    rewrite <- (alist_set_fresh name (File []) sub Hfresh).
    apply (at_parent_in_directory ENOENT (write_entry []) name ps v v1 sub
             _ (inl EISDIR) Hsub); [|exact Hw].
    unfold write_entry. now rewrite Hfresh.
  - destruct (at_parent_undo ENOTDIR ENOENT mkdir_entry rmdir_entry
                name ps v sub (alist_set name (Dir []) sub) Hsub)
      as (v2 & Hm & Hr).
    { unfold mkdir_entry. now rewrite Hfresh. }
    { unfold rmdir_entry. rewrite alist_get_set_same.
      now rewrite alist_remove_set_fresh. }
    exists v2. unfold mkdirSync, rmdirSync. rewrite entry_steps.
    rewrite (mkdirp_one_level name ps v sub Hsub Hfresh).
    split; [exact Hm|]. split.
    + rewrite <- (alist_set_fresh name (Dir []) sub Hfresh).
      apply (at_parent_in_directory ENOTDIR mkdir_entry name ps v v2 sub
               _ (inl EISDIR) Hsub); [|exact Hm].
      unfold mkdir_entry. now rewrite Hfresh.
    + rewrite (snoc_not_root _ (inl EISDIR)). exact Hr.
Qed.

End EntriesOfADirectory.

(** X14.  When [removeEntry(name)] returns for a proper entry name of a
    directory that can be listed, the listing of the directory afterwards
    is the listing before without that name, the other names in their
    order. *)
Theorem removeEntry_updates_listing
        (this : MemfsDirectoryHandle) (name : string)
        (recursive : option bool) (v v' : Volume) (names : list string) :
  readdirSync v (dh_path this) = inr names ->
  valid_name name = true ->
  removeEntry this name recursive v = (Ok tt, v') ->
  readdirSync v' (dh_path this)
  = inr (filter (fun n => negb (String.eqb name n)) names).
Proof.
  intros Hls Hname.
  destruct (listed_directory this v names Hls) as (sub & Hsub & ->).
  pose proof (entry_node this name v Hname sub Hsub) as Hnode.
  pose proof (entry_steps this name Hname) as Hsteps.
  set (p := child_path this name) in *.
  set (ps := filenameToSteps (dh_path this)) in *.
  assert (Hdone : forall e f,
             f name sub = inr (alist_remove name sub) ->
             forall X, match ps ++ [name] with
                       | [] => X
                       | s :: rest => at_parent e f s rest v
                       end = inr v' ->
             readdirSync v' (dh_path this)
             = inr (filter (fun n => negb (String.eqb name n))
                           (map fst sub))).
  { intros e f Hf X Hat.
    pose proof (at_parent_in_directory e f name ps v v' sub _ X Hsub Hf Hat)
      as Hget.
    unfold readdirSync, getLink. fold ps. rewrite Hget.
    now rewrite map_fst_remove. }
  assert (Hreach : forall e f,
             f name sub = inr (alist_remove name sub) ->
             exists s rest v1,
               ps ++ [name] = s :: rest
               /\ at_parent e f s rest v = inr v1
               /\ (v1 = v' ->
                   readdirSync v' (dh_path this)
                   = inr (filter (fun n => negb (String.eqb name n))
                                 (map fst sub)))).
  { intros e f Hf.
    destruct (at_parent_reaches e f name ps v sub _ Hsub Hf)
      as (v1 & Hat & _).
    destruct (ps ++ [name]) as [|s rest] eqn:E; [now destruct ps|].
    exists s, rest, v1. split; [reflexivity|]. split; [exact Hat|].
    intros ->. apply (Hdone e f Hf (inl EISDIR)).
    first [exact Hat | now rewrite E]. }
  unfold removeEntry, try_catch, bind, vol_read, vol_update, throw.
  fold p. unfold statSync. rewrite Hnode.
  destruct (alist_get name sub) as [[b|es]|] eqn:Hn; simpl.
  - destruct (Hreach ENOENT unlink_entry) as (s & rest & v1 & E & Hat & Hl).
    { unfold unlink_entry. now rewrite Hn. }
    unfold unlinkSync. rewrite Hsteps, E, Hat.
    intros H. inversion H. now apply Hl.
  - destruct (JS.truthy recursive).
    + destruct (Hreach ENOENT rm_entry eq_refl)
        as (s & rest & v1 & E & Hat & Hl).
      unfold rmSync_rf. rewrite Hsteps, E, Hat.
      intros H. inversion H. now apply Hl.
    + destruct es as [|x xs].
      * destruct (Hreach ENOENT rmdir_entry)
          as (s & rest & v1 & E & Hat & Hl).
        { unfold rmdir_entry. now rewrite Hn. }
        unfold rmdirSync. rewrite Hsteps, E, Hat.
        intros H. inversion H. now apply Hl.
      * rewrite (rmdirSync_populated v p x xs) by (now rewrite Hnode).
        discriminate.
  - discriminate.
Qed.

Lemma removeEntry_updates_listing_witness :
  let v := snd createMemoryFileSystem in
  let sandbox := {| dh_path := "/sandbox" |} in
  readdirSync (snd (removeEntry sandbox "input2.txt" None v)) "/sandbox"
  = inr ["input.txt"; "notadir"].
Proof.
  intros v sandbox.
  apply (removeEntry_updates_listing sandbox "input2.txt" None v
           (snd (removeEntry sandbox "input2.txt" None v))
           ["input.txt"; "input2.txt"; "notadir"]); reflexivity.
Defined.

(** X15.  In a directory that exists, creating a missing entry with a
    proper name, as a file through [getFileHandle] or as a directory
    through [getDirectoryHandle], adds the name to the listing of the
    directory, which holds besides it the names it held, in whatever
    order the volume lists them; removing the entry again with
    [removeEntry] gives back exactly the volume there was before. *)
Theorem create_lists_and_remove_restores
        (this : MemfsDirectoryHandle) (name : string) (v : Volume)
        (names : list string) :
  readdirSync v (dh_path this) = inr names ->
  valid_name name = true ->
  statSync v (child_path this name) = inl ENOENT ->
  let v1 := snd (getFileHandle this name (Some true) v) in
  let v2 := snd (getDirectoryHandle this name (Some true) v) in
  (exists names1, readdirSync v1 (dh_path this) = inr names1
                  /\ Permutation (name :: names) names1)
  /\ removeEntry this name None v1 = (Ok tt, v)
  /\ (exists names2, readdirSync v2 (dh_path this) = inr names2
                     /\ Permutation (name :: names) names2)
  /\ removeEntry this name None v2 = (Ok tt, v).
Proof.
  intros Hls Hname Hmissing.
  destruct (listed_directory this v names Hls) as (sub & Hsub & ->).
  pose proof (entry_node this name v Hname sub Hsub) as Hnode.
  assert (Hfresh : alist_get name sub = None).
  { unfold statSync in Hmissing. rewrite Hnode in Hmissing.
    now destruct (alist_get name sub). }
  destruct (create_in_directory this name v Hname sub Hsub Hfresh)
    as ((v1 & Hw & Hd1 & Hu) & (v2 & Hm & Hd2 & Hr)).
  assert (H1 : snd (getFileHandle this name (Some true) v) = v1).
  { unfold getFileHandle, try_catch, bind, vol_read, vol_update, throw, ret.
    rewrite Hmissing. simpl. now rewrite Hw. }
  assert (H2 : snd (getDirectoryHandle this name (Some true) v) = v2).
  { unfold getDirectoryHandle, try_catch, bind, vol_read, vol_update,
      throw, ret.
    rewrite Hmissing. simpl. fold (mkdirSync v (child_path this name) true).
    now rewrite Hm. }
  cbv zeta. rewrite H1, H2.
  assert (Hnode1 : getLink v1 (child_path this name) = Some (File [])).
  { rewrite (entry_node this name v1 Hname _ Hd1).
    rewrite <- (alist_set_fresh name (File []) sub Hfresh).
    apply alist_get_set_same. }
  assert (Hnode2 : getLink v2 (child_path this name) = Some (Dir [])).
  { rewrite (entry_node this name v2 Hname _ Hd2).
    rewrite <- (alist_set_fresh name (Dir []) sub Hfresh).
    apply alist_get_set_same. }
  split; [|split; [|split]].
  - exists (map fst sub ++ [name]). split.
    + unfold readdirSync, getLink. rewrite Hd1. now rewrite map_app.
    + apply Permutation_cons_append.
  - unfold removeEntry, try_catch, bind, vol_read, vol_update, throw.
    unfold statSync. rewrite Hnode1. simpl. now rewrite Hu.
  - exists (map fst sub ++ [name]). split.
    + unfold readdirSync, getLink. rewrite Hd2. now rewrite map_app.
    + apply Permutation_cons_append.
  - unfold removeEntry, try_catch, bind, vol_read, vol_update, throw.
    unfold statSync. rewrite Hnode2. simpl. now rewrite Hr.
Qed.

(** A directory d1, then a file f1, made in /tmp and removed again. *)
Lemma create_lists_and_remove_restores_witness :
  let tmp := {| dh_path := "/tmp" |} in
  let v0 := snd createMemoryFileSystem in
  let v1 := snd (getDirectoryHandle tmp "d1" (Some true) v0) in
  let v2 := snd (getFileHandle tmp "f1" (Some true) v1) in
  (exists names, readdirSync v2 "/tmp" = inr names
                 /\ Permutation ["f1"; "d1"] names)
  /\ removeEntry tmp "f1" None v2 = (Ok tt, v1)
  /\ removeEntry tmp "d1" None v1 = (Ok tt, v0).
Proof.
  intros tmp v0 v1 v2.
  destruct (create_lists_and_remove_restores tmp "d1" v0 []
              eq_refl eq_refl eq_refl) as (_ & _ & _ & Hback0).
  destruct (create_lists_and_remove_restores tmp "f1" v1 ["d1"]
              eq_refl eq_refl eq_refl) as (Hf & Hback & _).
  split; [exact Hf|]. split; [exact Hback|exact Hback0].
Defined.

(** ** Directories persist; removal touches nothing else *)

Section Persistence.

Lemma mkdirp_keeps_directories (steps : list string) :
  forall (es es' : Entries) (t : list string) (sub : Entries),
    mkdirp steps es = inr es' ->
    getNode t (Dir es) = Some (Dir sub) ->
    exists sub', getNode t (Dir es') = Some (Dir sub').
Proof.
  induction steps as [|s steps IH]; intros es es' t sub; simpl mkdirp.
  - intros H. inversion H. now exists sub.
  - destruct t as [|s' r]; [intros _ _; now eexists|]. rewrite !getNode_cons.
    destruct (alist_get s es) as [[x|sub0]|] eqn:Hs; [discriminate| |].
    + destruct (mkdirp steps sub0) as [|sub0'] eqn:Hm; [discriminate|].
      intros H. inversion H.
      destruct (String.eqb_spec s' s) as [->|Hne].
      * rewrite Hs, alist_get_set_same. now apply IH.
      * rewrite alist_get_set_other by assumption. intros Hg. now exists sub.
    + destruct (mkdirp steps []) as [|sub0'] eqn:Hm; [discriminate|].
      intros H. inversion H.
      destruct (String.eqb_spec s' s) as [->|Hne].
      * rewrite Hs. discriminate.
      * rewrite alist_get_set_other by assumption. intros Hg. now exists sub.
Qed.

Lemma at_parent_write_keeps_directories (e : errno) (d : list byte)
      (rest : list string) :
  forall (s : string) (es es' : Entries) (t : list string) (sub : Entries),
    at_parent e (write_entry d) s rest es = inr es' ->
    getNode t (Dir es) = Some (Dir sub) ->
    exists sub', getNode t (Dir es') = Some (Dir sub').
Proof.
  induction rest as [|s2 rest IH]; intros s es es' t sub Hat.
  - simpl in Hat. unfold write_entry in Hat.
    destruct t as [|s' r]; [intros _; now eexists|]. rewrite !getNode_cons.
    destruct (String.eqb_spec s' s) as [->|Hs].
    + destruct (alist_get s es) as [[x|sub0]|].
      * intros H. apply getNode_file in H as [_ H]. discriminate.
      * discriminate Hat.
      * discriminate.
    + assert (Hes : es' = alist_set s (File d) es).
      { destruct (alist_get s es) as [[?|?]|]; now inversion Hat. }
      subst es'. rewrite alist_get_set_other by assumption.
      intros Hg. now exists sub.
  - simpl in Hat.
    destruct (alist_get s es) as [[x|sub0]|] eqn:Hs; try discriminate.
    destruct (at_parent e (write_entry d) s2 rest sub0) as [|sub0'] eqn:Hsub;
      [discriminate|].
    inversion Hat; subst es'.
    destruct t as [|s' r]; [intros _; now eexists|]. rewrite !getNode_cons.
    destruct (String.eqb_spec s' s) as [->|Hne'].
    + rewrite Hs, alist_get_set_same. now apply IH with (s := s2).
    + rewrite alist_get_set_other by assumption. intros Hg. now exists sub.
Qed.

Lemma stat_directory_iff (v : Volume) (q : string) :
  (exists st, statSync v q = inr st /\ is_directory st = true)
  <-> exists sub, getLink v q = Some (Dir sub).
Proof.
  unfold statSync. split.
  - intros (st & H & Hd). destruct (getLink v q) as [[b|sub]|];
      try discriminate.
    + inversion H; subst. discriminate.
    + now exists sub.
  - intros (sub & ->). now eexists.
Qed.

Lemma writeFileSync_keeps_directories (v v' : Volume) (p q : string)
      (d : list byte) :
  writeFileSync v p d = inr v' ->
  (exists st, statSync v q = inr st /\ is_directory st = true) ->
  exists st, statSync v' q = inr st /\ is_directory st = true.
Proof.
  rewrite !stat_directory_iff. unfold writeFileSync, getLink.
  destruct (filenameToSteps p) as [|s rest]; [discriminate|].
  intros Hw (sub & Hg).
  exact (at_parent_write_keeps_directories _ _ _ _ _ _ _ _ Hw Hg).
Qed.

Lemma mkdirSync_keeps_directories (v v' : Volume) (p q : string) :
  mkdirSync v p true = inr v' ->
  (exists st, statSync v q = inr st /\ is_directory st = true) ->
  exists st, statSync v' q = inr st /\ is_directory st = true.
Proof.
  rewrite !stat_directory_iff. unfold mkdirSync, getLink.
  intros Hm (sub & Hg).
  exact (mkdirp_keeps_directories _ _ _ _ _ Hm Hg).
Qed.

Lemma close_keeps_directory (w : World) (q : string) :
  (exists st, statSync (volume w) q = inr st /\ is_directory st = true) ->
  exists st, statSync (volume (snd (close w))) q = inr st
             /\ is_directory st = true.
Proof.
  intros Hq. destruct (ws_closed (stream w)) eqn:Hc.
  { unfold close. now rewrite Hc. }
  rewrite (close_resolves w Hc).
  destruct (mkdirp _ (volume w)) as [e|v1] eqn:Hmk; [exact Hq|].
  assert (Hq1 : exists st, statSync v1 q = inr st /\ is_directory st = true).
  { now apply (mkdirSync_keeps_directories (volume w) v1
                 (JS.substring 0 (JS.lastIndexOf JS.slash (ws_path (stream w)))
                               (ws_path (stream w)))). }
  destruct (writeFileSync v1 _ _) as [e|v2] eqn:Hw; [exact Hq1|].
  now apply (writeFileSync_keeps_directories v1 v2 (ws_path (stream w))
               q (ws_data (stream w))).
Qed.

Lemma getFileHandle_keeps_directory (this : MemfsDirectoryHandle)
      (name : string) (create : option bool) (v : Volume) (q : string) :
  (exists st, statSync v q = inr st /\ is_directory st = true) ->
  exists st, statSync (snd (getFileHandle this name create v)) q = inr st
             /\ is_directory st = true.
Proof.
  intros Hq.
  unfold getFileHandle, try_catch, bind, vol_read, vol_update, throw, ret.
  destruct (statSync v (child_path this name)) as [e|st0].
  - destruct (has_code (FsError e) ENOENT); [|exact Hq].
    destruct (JS.truthy create); [|exact Hq].
    destruct (writeFileSync v (child_path this name) []) as [e'|v'] eqn:Hw;
      [exact Hq|].
    exact (writeFileSync_keeps_directories v v' _ q [] Hw Hq).
  - destruct (is_directory st0); exact Hq.
Qed.

Lemma alist_get_remove_other (k k' : string) (es : Entries) :
  k <> k' -> alist_get k (alist_remove k' es) = alist_get k es.
Proof.
  intros Hne. unfold alist_remove.
  induction es as [|[k0 n0] r IH]; simpl; [reflexivity|].
  destruct (String.eqb_spec k' k0) as [->|Hk0]; simpl.
  - destruct (String.eqb_spec k k0); [contradiction|assumption].
  - destruct (String.eqb k k0); [reflexivity|assumption].
Qed.

Lemma at_parent_remove_keeps_files (e : errno)
      (f : string -> Entries -> errno + Entries) (rest : list string) :
  (forall s0 es0 r, f s0 es0 = inr r -> r = alist_remove s0 es0) ->
  forall (s : string) (es es' : Entries) (t : list string) (c : list byte),
    at_parent e f s rest es = inr es' ->
    (forall more, t <> (s :: rest) ++ more) ->
    getNode t (Dir es) = Some (File c) ->
    getNode t (Dir es') = Some (File c).
Proof.
  intros Hf. induction rest as [|s2 rest IH]; intros s es es' t c Hat Hout.
  - simpl in Hat. apply Hf in Hat. subst es'.
    destruct t as [|s' r]; [discriminate|]. rewrite !getNode_cons.
    destruct (String.eqb_spec s' s) as [->|Hs].
    + now destruct (Hout r).
    + now rewrite alist_get_remove_other.
  - simpl in Hat.
    destruct (alist_get s es) as [[x|sub]|] eqn:Hs; try discriminate.
    destruct (at_parent e f s2 rest sub) as [|sub'] eqn:Hsub; [discriminate|].
    inversion Hat; subst es'.
    destruct t as [|s' r]; [discriminate|]. rewrite !getNode_cons.
    destruct (String.eqb_spec s' s) as [->|Hne'].
    + rewrite Hs, alist_get_set_same.
      apply IH with (s := s2) (es := sub); [assumption|].
      intros more Heq. apply (Hout more). simpl. now rewrite Heq.
    + now rewrite alist_get_set_other.
Qed.

End Persistence.

(** X16.  [removeEntry] changes the content of no file outside the entry
    it removes: a file that could be read before at a path that does not
    lead through the path of the entry reads the same afterwards, whatever
    [removeEntry] returned or threw. *)
Theorem removeEntry_keeps_other_files
        (this : MemfsDirectoryHandle) (name : string)
        (recursive : option bool) (v : Volume) (p' : string) (c : list byte) :
  readFileSync v p' = inr c ->
  (forall more, filenameToSteps p'
                <> filenameToSteps (child_path this name) ++ more) ->
  readFileSync (snd (removeEntry this name recursive v)) p' = inr c.
Proof.
  intros Hread Hout. set (p := child_path this name) in *.
  assert (Hframe : forall e f v',
             (forall s0 es0 r, f s0 es0 = inr r -> r = alist_remove s0 es0) ->
             forall s rest, filenameToSteps p = s :: rest ->
             at_parent e f s rest v = inr v' ->
             readFileSync v' p' = inr c).
  { intros e f v' Hf s rest Hsteps Hat.
    unfold readFileSync, getLink in *.
    destruct (getNode (filenameToSteps p') (Dir v)) as [[b|?]|] eqn:Hg;
      try discriminate.
    inversion Hread; subst b.
    rewrite (at_parent_remove_keeps_files e f rest Hf s v v' _ c Hat);
      [reflexivity| |exact Hg].
    intros more. rewrite <- Hsteps. apply Hout. }
  unfold removeEntry, try_catch, bind, vol_read, vol_update, throw.
  fold p.
  destruct (statSync v p) as [e|st]; simpl.
  { destruct (errno_eqb e ENOENT); [exact Hread|].
    destruct (errno_eqb e ENOTEMPTY); exact Hread. }
  destruct (is_directory st); [destruct (JS.truthy recursive)|].
  - unfold rmSync_rf.
    destruct (filenameToSteps p) as [|s rest] eqn:Hsteps; [exact Hread|].
    destruct (at_parent ENOENT rm_entry s rest v) as [e|v'] eqn:Hat;
      [exact Hread|].
    simpl. apply (Hframe ENOENT rm_entry v') with (s := s) (rest := rest);
      try assumption; try reflexivity.
    intros s0 es0 r H. now inversion H.
  - unfold rmdirSync.
    destruct (filenameToSteps p) as [|s rest] eqn:Hsteps.
    + destruct v; exact Hread.
    + destruct (at_parent ENOENT rmdir_entry s rest v) as [e|v'] eqn:Hat.
      * simpl. destruct (errno_eqb e ENOENT); [exact Hread|].
        destruct (errno_eqb e ENOTEMPTY); exact Hread.
      * simpl. apply (Hframe ENOENT rmdir_entry v') with (s := s) (rest := rest);
          try assumption; try reflexivity.
        intros s0 es0 r. unfold rmdir_entry.
        destruct (alist_get s0 es0) as [[?|[|? ?]]|]; try discriminate.
        intros H. now inversion H.
  - unfold unlinkSync.
    destruct (filenameToSteps p) as [|s rest] eqn:Hsteps.
    + simpl. exact Hread.
    + destruct (at_parent ENOENT unlink_entry s rest v) as [e|v'] eqn:Hat.
      * simpl. destruct (errno_eqb e ENOENT); [exact Hread|].
        destruct (errno_eqb e ENOTEMPTY); exact Hread.
      * simpl. apply (Hframe ENOENT unlink_entry v') with (s := s) (rest := rest);
          try assumption; try reflexivity.
        intros s0 es0 r. unfold unlink_entry.
        destruct (alist_get s0 es0) as [[?|?]|]; try discriminate.
        intros H. now inversion H.
Qed.

Lemma removeEntry_keeps_other_files_witness :
  let v := snd createMemoryFileSystem in
  readFileSync (snd (removeEntry {| dh_path := "/sandbox" |} "input2.txt"
                                 None v))
               "/sandbox/input.txt"
  = inr (utf8 "hello from input.txt" ++ [x0a]).
Proof.
  intros v.
  apply (removeEntry_keeps_other_files {| dh_path := "/sandbox" |}
           "input2.txt" None v).
  - reflexivity.
  - intros more. vm_compute. intros H. inversion H.
Defined.

(** X17.  A directory that exists is still a directory after
    [getFileHandle], after [getDirectoryHandle] and after [close],
    whatever their arguments and whether they returned or threw: of the
    adapter's operations only [removeEntry] removes one. *)
Theorem directories_persist (this : MemfsDirectoryHandle) (name : string)
        (create : option bool) (w : World) (q : string) :
  (exists st, statSync (volume w) q = inr st /\ is_directory st = true) ->
  (exists st, statSync (snd (getFileHandle this name create (volume w))) q
              = inr st /\ is_directory st = true)
  /\ (exists st,
        statSync (snd (getDirectoryHandle this name create (volume w))) q
        = inr st /\ is_directory st = true)
  /\ (exists st, statSync (volume (snd (close w))) q = inr st
                 /\ is_directory st = true).
Proof.
  intros Hq. split; [now apply getFileHandle_keeps_directory|].
  split; [|now apply close_keeps_directory].
  unfold getDirectoryHandle, try_catch, bind, vol_read, vol_update, throw, ret.
  destruct (statSync (volume w) (child_path this name)) as [e|st0].
  - destruct (has_code (FsError e) ENOENT); [|exact Hq].
    destruct (JS.truthy create); [|exact Hq].
    destruct (mkdirSync (volume w) (child_path this name) true)
      as [e'|v'] eqn:Hm; [exact Hq|].
    exact (mkdirSync_keeps_directories (volume w) v' _ q Hm Hq).
  - destruct (negb (is_directory st0)); exact Hq.
Qed.

Lemma directories_persist_witness :
  let v := snd createMemoryFileSystem in
  let w := {| volume := v;
              stream := {| ws_path := "/tmp/deep/f"; ws_data := [x01];
                           ws_position := 1; ws_closed := false |} |} in
  exists st, statSync (volume (snd (close w))) "/sandbox" = inr st
             /\ is_directory st = true.
Proof.
  intros v w.
  apply (directories_persist {| dh_path := "/" |} "x" None w "/sandbox").
  exists (mkStats true 0). split; reflexivity.
Defined.

(** ** Redirection: what a run leaves in the file *)

Section Redirection.





End Redirection.





(** ** Two streams on one file *)

(** X20.  When two open streams were created for the same path, ending in
    a proper entry name, and the close of the first has returned, the
    close of the second returns too and the file then holds the buffer of
    the second stream alone: the stream closed last replaces what the
    other published. *)
Theorem last_close_wins (wa wa' wb : World) :
  ws_closed (stream wa) = false ->
  ws_closed (stream wb) = false ->
  ws_path (stream wb) = ws_path (stream wa) ->
  valid_name (JS.pop_or_empty (JS.split JS.slash (ws_path (stream wa)))) = true ->
  close wa = (Ok tt, wa') ->
  exists wb',
    close (with_volume wb (volume wa')) = (Ok tt, wb')
    /\ readFileSync (volume wb') (ws_path (stream wa))
       = inr (ws_data (stream wb)).
Proof.
  intros Ha Hb Hpath Hname Hclose.
  destruct (close_publishes wa wa' Ha Hclose) as (Hread & _).
  destruct (close_returns (with_volume wb (volume wa'))
                          (ws_data (stream wa))) as (wb' & Hcb).
  - exact Hb.
  - simpl. now rewrite Hpath.
  - simpl. now rewrite Hpath.
  - exists wb'. split; [exact Hcb|].
    destruct (close_publishes (with_volume wb (volume wa')) wb' Hb Hcb)
      as (Hrb & _).
    simpl in Hrb. now rewrite Hpath in Hrb.
Qed.

Lemma last_close_wins_witness :
  let v := snd createMemoryFileSystem in
  let a := {| ws_path := "/sandbox/input.txt"; ws_data := [x01; x02; x03];
              ws_position := 3; ws_closed := false |} in
  let b := {| ws_path := "/sandbox/input.txt"; ws_data := [x09];
              ws_position := 1; ws_closed := false |} in
  let wa := {| volume := v; stream := a |} in
  exists wb',
    close {| volume := volume (snd (close wa)); stream := b |} = (Ok tt, wb')
    /\ readFileSync (volume wb') "/sandbox/input.txt" = inr [x09].
Proof.
  intros v a b wa.
  apply (last_close_wins wa (snd (close wa)) {| volume := v; stream := b |});
    reflexivity.
Defined.

(** ** Creating what is missing *)

Section Creation.

(** Where a directory is reached, no file was met on the way. *)
Lemma file_on_the_way_reached (steps : list string) :
  forall (n : Node) (sub : Entries),
    getNode steps n = Some (Dir sub) -> file_on_the_way steps n = false.
Proof.
  induction steps as [|s steps IH]; intros n sub; destruct n as [b|es]; simpl;
    try discriminate; try reflexivity.
  destruct (alist_get s es) as [c|]; [|discriminate]. apply IH.
Qed.

(** The recursive [mkdirSync] of a path that did not resolve leaves an
    empty directory there. *)
Lemma mkdirp_makes_empty (steps : list string) :
  forall es es' : Entries,
    getNode steps (Dir es) = None ->
    mkdirp steps es = inr es' ->
    getNode steps (Dir es') = Some (Dir []).
Proof.
  induction steps as [|s steps IH]; intros es es'; [discriminate|].
  rewrite getNode_cons. simpl mkdirp.
  destruct (alist_get s es) as [[b|sub]|] eqn:Hs.
  - intros _ H. discriminate H.
  - intros Hnone.
    destruct (mkdirp steps sub) as [e|sub'] eqn:Hm; [discriminate|].
    intros H. inversion H; subst es'.
    rewrite getNode_cons, alist_get_set_same. now apply (IH sub).
  - intros _.
    destruct (mkdirp steps []) as [e|sub'] eqn:Hm; [discriminate|].
    intros H. inversion H; subst es'.
    rewrite getNode_cons, alist_get_set_same.
    destruct steps as [|s2 steps2].
    + simpl in Hm. now inversion Hm.
    + apply (IH []); [reflexivity|exact Hm].
Qed.

(** [writeFileSync] makes no directory: where the steps before the last
    reach no directory it fails with ENOENT. *)
Lemma at_parent_no_parent (f : string -> Entries -> errno + Entries)
      (name : string) (ps : list string) :
  forall es : Entries,
    (forall sub, getNode ps (Dir es) <> Some (Dir sub)) ->
    match ps ++ [name] with
    | [] => inl EISDIR
    | s :: rest => at_parent ENOENT f s rest es
    end = inl ENOENT.
Proof.
  induction ps as [|p0 ps IH]; intros es Hno.
  - exfalso. now apply (Hno es).
  - simpl app.
    destruct (ps ++ [name]) as [|s' rest'] eqn:E; [now destruct ps|].
    simpl at_parent.
    destruct (alist_get p0 es) as [[b|sub]|] eqn:Hp; try reflexivity.
    rewrite (IH sub); [reflexivity|].
    intros sub' H. apply (Hno sub'). now rewrite getNode_cons, Hp.
Qed.

(** A path that does not resolve has a last step. *)
Lemma missing_has_last_step (v : Volume) (p : string) :
  statSync v p = inl ENOENT ->
  getNode (filenameToSteps p) (Dir v) = None
  /\ filenameToSteps p
     = removelast (filenameToSteps p) ++ [last (filenameToSteps p) ""].
Proof.
  intros Hst. apply getLink_of_stat_missing in Hst. unfold getLink in Hst.
  split; [exact Hst|]. apply app_removelast_last.
  intros E. rewrite E in Hst. discriminate.
Qed.

(** [getFileHandle] with [create] on a path that does not exist. *)
Lemma getFileHandle_creates (this : MemfsDirectoryHandle) (name : string)
      (v : Volume) :
  let p := child_path this name in
  statSync v p = inl ENOENT ->
  (forall sub, parent_directory v p = Some sub ->
     exists v', getFileHandle this name (Some true) v
                = (Ok {| fh_path := p |}, v')
                /\ readFileSync v' p = inr [])
  /\ (parent_directory v p = None ->
      exists e, getFileHandle this name (Some true) v
                = (Throw (FsError e), v)
                /\ (file_on_the_way (filenameToSteps p) (Dir v) = false ->
                    e = ENOENT)).
Proof.
  intros p Hst.
  destruct (missing_has_last_step v p Hst) as (Hnone & Hsteps).
  set (ps := removelast (filenameToSteps p)) in *.
  set (b := last (filenameToSteps p) "") in *.
  unfold getFileHandle, try_catch, bind, vol_read, vol_update, throw, ret.
  fold p. rewrite Hst. cbn [has_code errno_eqb JS.truthy].
  unfold parent_directory. fold ps. split.
  - intros sub Hparent.
    assert (Hsub : getNode ps (Dir v) = Some (Dir sub)).
    { destruct (getNode ps (Dir v)) as [[?|?]|]; try discriminate.
      now inversion Hparent. }
    destruct (writeFileSync_in_directory v p b ps sub [] Hsteps Hsub)
      as (v' & Hw).
    { intros x Hx. rewrite Hsteps, getNode_app, Hsub in Hnone.
      simpl in Hnone. now rewrite Hx in Hnone. }
    exists v'. rewrite Hw. split; [reflexivity|].
    exact (writeFileSync_read v v' p [] Hw).
  - intros Hparent. unfold writeFileSync. rewrite Hsteps.
    rewrite at_parent_no_parent; [now exists ENOENT|].
    intros sub Hsub. now rewrite Hsub in Hparent.
Qed.

(** [getDirectoryHandle] with [create] on a path that does not exist. *)
Lemma getDirectoryHandle_creates (this : MemfsDirectoryHandle)
      (name : string) (v : Volume) :
  let p := child_path this name in
  statSync v p = inl ENOENT ->
  (file_on_the_way (filenameToSteps p) (Dir v) = false ->
     exists v', getDirectoryHandle this name (Some true) v
                = (Ok {| dh_path := p |}, v')
                /\ readdirSync v' p = inr [])
  /\ (file_on_the_way (filenameToSteps p) (Dir v) = true ->
      getDirectoryHandle this name (Some true) v
      = (Throw (FsError ENOTDIR), v)).
Proof.
  intros p Hst.
  destruct (missing_has_last_step v p Hst) as (Hnone & _).
  unfold getDirectoryHandle, try_catch, bind, vol_read, vol_update, throw,
    ret.
  fold p. rewrite Hst. cbn [has_code errno_eqb JS.truthy]. unfold mkdirSync.
  split; intros Hway.
  - destruct (mkdirp_clear _ _ Hway) as (v' & Hmk). rewrite Hmk.
    exists v'. split; [reflexivity|].
    unfold readdirSync, getLink.
    now rewrite (mkdirp_makes_empty _ _ _ Hnone Hmk).
  - now rewrite (mkdirp_blocked _ _ Hway).
Qed.

End Creation.

(** * The claims about opening and publishing *)

(** C6 (as amended).  With [p] the path of the entry [name] of a directory
    handle: when [p] is a file, [getDirectoryHandle] throws
    TypeMismatchError whatever [create] is, and [getFileHandle] opens it,
    also with [create = true]; when [p] is a directory, [getFileHandle]
    throws TypeMismatchError whatever [create] is; when [p] does not
    exist, both throw NotFoundError unless [create] is true.  When [p]
    does not exist and [create] is true, [getDirectoryHandle] makes an
    empty directory there, with the directories that are missing on the
    way, unless a file lies on the way, and then the volume's ENOTDIR
    escapes; [getFileHandle] makes an empty file when the directory that
    is to hold it exists, and otherwise an error of the volume escapes
    (the ENOENT of [writeFileSync] when a directory is missing) and
    nothing is made.  In particular both create when the
    directory of the handle exists and [name] is a proper entry name. *)
Theorem get_handle_by_kind (this : MemfsDirectoryHandle) (name : string)
        (v : Volume) :
  let p := child_path this name in
  (forall st create,
      statSync v p = inr st -> is_directory st = false ->
      getDirectoryHandle this name create v
      = (Throw (DOMException "Path is not a directory" TypeMismatchError), v)
      /\ getFileHandle this name create v = (Ok {| fh_path := p |}, v))
  /\ (forall st create,
      statSync v p = inr st -> is_directory st = true ->
      getFileHandle this name create v
      = (Throw (DOMException "Path is a directory" TypeMismatchError), v))
  /\ (forall create,
      statSync v p = inl ENOENT -> JS.truthy create = false ->
      getFileHandle this name create v
      = (Throw (DOMException "File not found" NotFoundError), v)
      /\ getDirectoryHandle this name create v
         = (Throw (DOMException "Directory not found" NotFoundError), v))
  /\ (statSync v p = inl ENOENT ->
      (file_on_the_way (filenameToSteps p) (Dir v) = false ->
       exists v', getDirectoryHandle this name (Some true) v
                  = (Ok {| dh_path := p |}, v')
                  /\ readdirSync v' p = inr [])
      /\ (file_on_the_way (filenameToSteps p) (Dir v) = true ->
          getDirectoryHandle this name (Some true) v
          = (Throw (FsError ENOTDIR), v))
      /\ (forall sub, parent_directory v p = Some sub ->
          exists v', getFileHandle this name (Some true) v
                     = (Ok {| fh_path := p |}, v')
                     /\ readFileSync v' p = inr [])
      /\ (parent_directory v p = None ->
          exists e, getFileHandle this name (Some true) v
                    = (Throw (FsError e), v)
                    /\ (file_on_the_way (filenameToSteps p) (Dir v) = false ->
                        e = ENOENT)))
  /\ (forall st,
      statSync v p = inl ENOENT ->
      statSync v (dh_path this) = inr st -> is_directory st = true ->
      valid_name name = true ->
      (exists v', getFileHandle this name (Some true) v
                  = (Ok {| fh_path := p |}, v')
                  /\ readFileSync v' p = inr [])
      /\ (exists v', getDirectoryHandle this name (Some true) v
                     = (Ok {| dh_path := p |}, v')
                     /\ readdirSync v' p = inr [])).
Proof.
  intros p.
  split; [|split; [|split; [|split]]].
  - intros st create Hst Hkind.
    unfold getFileHandle, getDirectoryHandle. fold p.
    unfold try_catch, bind, vol_read, vol_update, throw, ret.
    now rewrite Hst, Hkind.
  - intros st create Hst Hkind.
    unfold getFileHandle. fold p.
    unfold try_catch, bind, vol_read, vol_update, throw, ret.
    now rewrite Hst, Hkind.
  - intros create Hst Hcreate.
    unfold getFileHandle, getDirectoryHandle. fold p.
    unfold try_catch, bind, vol_read, vol_update, throw, ret.
    now rewrite Hst, Hcreate.
  - intros Hst.
    destruct (getDirectoryHandle_creates this name v Hst) as (Hd1 & Hd2).
    destruct (getFileHandle_creates this name v Hst) as (Hf1 & Hf2).
    auto.
  - intros st Hst Hdst Hdir Hname.
    destruct (getLink_of_stat_directory _ _ _ Hdst Hdir) as (sub & Hsub).
    pose proof (steps_child_path this name Hname) as Hsteps. fold p in Hsteps.
    unfold getLink in Hsub.
    destruct (getDirectoryHandle_creates this name v Hst) as (Hd1 & _).
    destruct (getFileHandle_creates this name v Hst) as (Hf1 & _).
    fold p in Hd1, Hf1. split.
    + apply (Hf1 sub). unfold parent_directory.
      rewrite Hsteps, removelast_last. now rewrite Hsub.
    + apply Hd1. rewrite Hsteps.
      pose proof (getLink_of_stat_missing _ _ Hst) as Hmiss.
      unfold getLink in Hmiss. rewrite Hsteps, getNode_app, Hsub in Hmiss.
      assert (Hfresh : alist_get name sub = None).
      { simpl in Hmiss. now destruct (alist_get name sub). }
      clear - Hsub Hfresh.
      revert v sub Hsub Hfresh.
      induction (filenameToSteps (dh_path this)) as [|s ps IH];
        intros v sub Hsub Hfresh.
      * simpl in *. inversion Hsub; subst. now rewrite Hfresh.
      * rewrite getNode_cons in Hsub. simpl.
        destruct (alist_get s v) as [[b|es]|]; try discriminate.
        -- destruct ps; discriminate.
        -- now apply (IH es sub).
Qed.

(** C6, counterexample.  The directory /tmp is opened and then removed
    through the root handle; on the handle that is left,
    [getFileHandle("f", { create: true })] finds no target and creates
    nothing: the ENOENT of [writeFileSync] escapes as it is.  The same
    happens on a live handle for a name that leads through a missing
    directory. *)
Lemma getFileHandle_create_without_parent :
  let root := {| dh_path := "/" |} in
  let v0 := snd createMemoryFileSystem in
  let tmp := {| dh_path := "/tmp" |} in
  let v1 := snd (removeEntry root "tmp" None v0) in
  getDirectoryHandle root "tmp" None v0 = (Ok tmp, v0)
  /\ fst (removeEntry root "tmp" None v0) = Ok tt
  /\ statSync v1 (child_path tmp "f") = inl ENOENT
  /\ getFileHandle tmp "f" (Some true) v1 = (Throw (FsError ENOENT), v1)
  /\ statSync v0 (child_path root "nodir/f") = inl ENOENT
  /\ getFileHandle root "nodir/f" (Some true) v0
     = (Throw (FsError ENOENT), v0).
Proof.
  vm_compute. repeat split; reflexivity.
Qed.

(** A file, a directory and a missing name in the volume of
    [createMemoryFileSystem]; and the handle of /tmp after /tmp has been
    removed, on which [getDirectoryHandle] with [create] makes /tmp/d, and
    /tmp with it. *)
Lemma get_handle_by_kind_witness :
  let sandbox := {| dh_path := "/sandbox" |} in
  let tmp := {| dh_path := "/tmp" |} in
  let v := snd createMemoryFileSystem in
  let v1 := snd (removeEntry {| dh_path := "/" |} "tmp" None v) in
  fst (getDirectoryHandle sandbox "notadir" (Some true) v)
  = Throw (DOMException "Path is not a directory" TypeMismatchError)
  /\ fst (getFileHandle {| dh_path := "/" |} "tmp" (Some true) v)
     = Throw (DOMException "Path is a directory" TypeMismatchError)
  /\ fst (getFileHandle sandbox "new.txt" None v)
     = Throw (DOMException "File not found" NotFoundError)
  /\ (exists v', getFileHandle sandbox "new.txt" (Some true) v
                 = (Ok {| fh_path := "/sandbox/new.txt" |}, v')
                 /\ readFileSync v' "/sandbox/new.txt" = inr [])
  /\ statSync v1 "/tmp" = inl ENOENT
  /\ (exists v', getDirectoryHandle tmp "d" (Some true) v1
                 = (Ok {| dh_path := "/tmp/d" |}, v')
                 /\ readdirSync v' "/tmp/d" = inr [])
  /\ (exists e, getFileHandle tmp "f" (Some true) v1
                = (Throw (FsError e), v1)).
Proof.
  intros sandbox tmp v v1.
  pose proof (get_handle_by_kind sandbox "notadir" v) as (Hfile & _).
  pose proof (get_handle_by_kind {| dh_path := "/" |} "tmp" v)
    as (_ & Hdir & _).
  pose proof (get_handle_by_kind sandbox "new.txt" v)
    as (_ & _ & Hmissing & _ & Hcreate).
  pose proof (get_handle_by_kind tmp "d" v1) as (_ & _ & _ & Hstale & _).
  pose proof (get_handle_by_kind tmp "f" v1) as (_ & _ & _ & Hstale' & _).
  split; [|split; [|split; [|split; [|split; [|split]]]]].
  - destruct (Hfile (mkStats false 0) (Some true) eq_refl eq_refl) as (H & _).
    now rewrite H.
  - now rewrite (Hdir (mkStats true 0) (Some true) eq_refl eq_refl).
  - destruct (Hmissing None eq_refl eq_refl) as (H & _). now rewrite H.
  - exact (proj1 (Hcreate (mkStats true 0) eq_refl eq_refl eq_refl eq_refl)).
  - reflexivity.
  - exact (proj1 (Hstale eq_refl) eq_refl).
  - destruct (Hstale' eq_refl) as (_ & _ & _ & Hnone).
    destruct (Hnone eq_refl) as (e & He & _). now exists e.
Defined.

(** C1 (as amended).  For a stream created for the path of a file handle,
    no sequence of [write], [seek] and [truncate] calls changes the
    volume: a [getFile] made before [close] returns what it returned
    before the stream existed.  A [close] that returns leaves at the path
    a file whose bytes are the whole buffer of the stream, which [getFile]
    then returns.  When the path ends in a proper entry name, the first
    [close] returns exactly when no file lies on the way to the directory
    part of the path and the path is not a directory: so it does for a
    file that exists, and for a file that is missing in a directory that
    exists, which it creates.  A first [close] that throws has thrown the
    volume's ENOTDIR or EISDIR, has published nothing, the volume being as
    before, and has closed the stream. *)
Theorem stream_publishes_on_close
        (h : MemfsFileHandle) (keep : option bool) (v v0 : Volume)
        (s : MemfsWritableFileStream) (cs : list StreamCall) :
  createWritable h keep v = (Ok s, v0) ->
  let w := calls cs {| volume := v0; stream := s |} in
  let p := fh_path h in
  let dir := JS.substring 0 (JS.lastIndexOf JS.slash p) p in
  volume w = v
  /\ getFile h (volume w) = getFile h v
  /\ (forall w', close w = (Ok tt, w') ->
        readFileSync (volume w') p = inr (ws_data (stream w))
        /\ getFile h (volume w')
           = (Ok {| file_bits := ws_data (stream w); file_name := fh_name h |},
              volume w'))
  /\ (valid_name (fh_name h) = true ->
      (fst (close w) = Ok tt
       <-> file_on_the_way (filenameToSteps dir) (Dir v) = false
           /\ forall st, statSync v p = inr st -> is_directory st = false)
      /\ (forall c, readFileSync v p = inr c ->
            exists w', close w = (Ok tt, w'))
      /\ (forall st, statSync v p = inl ENOENT ->
            statSync v dir = inr st -> is_directory st = true ->
            exists w', close w = (Ok tt, w'))
      /\ (forall e w', close w = (Throw e, w') ->
            (e = FsError ENOTDIR \/ e = FsError EISDIR)
            /\ volume w' = v
            /\ ws_closed (stream w') = true)).
Proof.
  intros Hnew w p dir.
  destruct (createWritable_pure h keep v v0 s Hnew) as (-> & Hpath & Hopen).
  destruct (calls_frame cs {| volume := v; stream := s |}) as (Hv & Hp & Hc).
  fold w in Hv, Hp, Hc. simpl in Hv, Hp, Hc.
  rewrite Hpath in Hp. fold p in Hp. rewrite Hopen in Hc.
  split; [assumption|]. split; [now rewrite Hv|]. split.
  - intros w' Hclose.
    destruct (close_publishes w w' Hc Hclose) as (Hread & _).
    rewrite Hp in Hread. split; [assumption|].
    now apply getFile_of_file.
  - intros Hname.
    assert (Hname' : valid_name (JS.pop_or_empty
                                   (JS.split JS.slash (ws_path (stream w))))
                     = true) by (now rewrite Hp).
    destruct (close_returns_iff w Hc Hname') as (Hiff & _).
    rewrite Hp, Hv in Hiff. fold dir in Hiff.
    split; [exact Hiff|]. split; [|split].
    + intros c Hfile. apply (close_returns w c Hc).
      * now rewrite Hv, Hp.
      * exact Hname'.
    + intros st Hmissing Hdst Hdir.
      exists (snd (close w)).
      assert (Hok : fst (close w) = Ok tt).
      { apply Hiff. split.
        - destruct (getLink_of_stat_directory _ _ _ Hdst Hdir) as (sub & Hsub).
          exact (file_on_the_way_reached _ _ _ Hsub).
        - intros st'. rewrite Hmissing. discriminate. }
      destruct (close w) as [r w']. simpl in Hok. now subst r.
    + intros e w' Hthrow.
      destruct (close_failure w w' e Hc Hname' Hthrow) as (-> & He & _).
      split; [exact He|]. split; [exact Hv|reflexivity].
Qed.


End Engine.

(** * Instances on an engine limited by the language alone

    The statements about streams hold for every engine; the instances
    below take the engine that grants every length up to
    [Number.MAX_SAFE_INTEGER]. *)

(** C2, counterexample.  [seek(-1)] is accepted on an open stream, and the
    write of one byte that follows throws instead of succeeding; so does
    the write of one byte after [seek(2^53)], a length no engine
    grants. *)
Lemma write_after_negative_seek_throws :
  let E := JS.MAX_SAFE_INTEGER in
  let w0 := {| volume := []; stream := fresh_stream "/f" |} in
  let w1 := snd (seek (-1) w0) in
  let w2 := snd (seek (2 ^ 53) w0) in
  fst (seek (-1) w0) = Ok tt
  /\ ws_closed (stream w1) = false
  /\ ws_position (stream w1) = -1
  /\ write E (Bytes [x01]) w1 = (Throw RangeError, w1)
  /\ fst (write E (WriteParams (Some (-1)) [x01]) w0) = Throw RangeError
  /\ fst (seek (2 ^ 53) w0) = Ok tt
  /\ ws_position (stream w2) = 2 ^ 53
  /\ write E (Bytes [x01]) w2 = (Throw RangeError, w2).
Proof.
  vm_compute. repeat split; reflexivity.
Qed.

Lemma write_at_nonnegative_position_witness :
  let E := JS.MAX_SAFE_INTEGER in
  let w := {| volume := [];
              stream := {| ws_path := "/f"; ws_data := [x05; x06];
                           ws_position := 1; ws_closed := false |} |} in
  (exists data',
      write E (WriteParams (Some 4) [x01; x02]) w
      = (Ok tt, with_position (with_data w data') (4 + 2))
      /\ JS.len data' = Z.max 2 (4 + 2)
      /\ (forall i, 2 <= i < 4 -> byte_at data' i = Some x00)
      /\ (forall i, 4 <= i < 4 + 2 ->
                    byte_at data' i = byte_at [x01; x02] (i - 4))
      /\ (forall i, 0 <= i < 2 -> ~ (4 <= i < 4 + 2) ->
                    byte_at data' i = byte_at [x05; x06] i))
  /\ write E (WriteParams (Some (2 ^ 53)) [x01; x02]) w
     = (Throw RangeError, w)
  /\ (forall p, 2 <= p -> seek p w = (Ok tt, with_position w p)).
Proof.
  intros E w.
  destruct (write_at_nonnegative_position E (WriteParams (Some 4) [x01; x02])
              w eq_refl) as (Hok & _ & _ & Hseek).
  { simpl. lia. }
  destruct (write_at_nonnegative_position E
              (WriteParams (Some (2 ^ 53)) [x01; x02]) w eq_refl)
    as (_ & _ & Hbig & _).
  { simpl. lia. }
  split; [apply Hok; now apply Z.leb_le|].
  split; [apply Hbig; now apply Z.ltb_lt|exact Hseek].
Defined.

(** C9, counterexample.  [truncate(-1)] on a buffer of three bytes leaves
    two bytes, not a buffer of the requested size, and moves the cursor
    to -1; [truncate(2^53)] asks for a length no engine grants, throws,
    and leaves the buffer as it was. *)
Lemma truncate_negative_size_not_exact :
  let E := JS.MAX_SAFE_INTEGER in
  let w := {| volume := [];
              stream := {| ws_path := "/f"; ws_data := [x05; x06; x07];
                           ws_position := 2; ws_closed := false |} |} in
  fst (truncate E (-1) w) = Ok tt
  /\ ws_data (stream (snd (truncate E (-1) w))) = [x05; x06]
  /\ JS.len (ws_data (stream (snd (truncate E (-1) w)))) <> -1
  /\ ws_position (stream (snd (truncate E (-1) w))) = -1
  /\ truncate E (2 ^ 53) w = (Throw RangeError, w).
Proof.
  vm_compute. repeat split; try reflexivity. discriminate.
Qed.

Lemma truncate_to_nonnegative_size_witness :
  let E := JS.MAX_SAFE_INTEGER in
  let w := {| volume := [];
              stream := {| ws_path := "/f"; ws_data := [x05; x06; x07];
                           ws_position := 2; ws_closed := false |} |} in
  (exists data',
    truncate E 5 w = (Ok tt, with_position (with_data w data') (Z.min 2 5))
    /\ JS.len data' = 5
    /\ (forall i, 0 <= i < Z.min 3 5 ->
                  byte_at data' i = byte_at [x05; x06; x07] i)
    /\ (forall i, 3 <= i < 5 -> byte_at data' i = Some x00)
    /\ Z.min 2 5 <= JS.len data')
  /\ truncate E (2 ^ 53) w = (Throw RangeError, w).
Proof.
  intros E w.
  destruct (truncate_to_nonnegative_size E 5 w eq_refl) as (Hok & _ & _);
    [lia|].
  destruct (truncate_to_nonnegative_size E (2 ^ 53) w eq_refl)
    as (_ & _ & Hbig); [lia|].
  split; [apply Hok; now apply Z.leb_le|apply Hbig; now apply Z.ltb_lt].
Defined.

(** C1, counterexample.  The file /sandbox/notadir is opened, then
    removed, and a directory is made under its name.  A stream created
    from the handle that is left accepts a write, but its first [close]
    throws the volume's EISDIR: afterwards there is no file at the path,
    the buffer has not been published, the volume is as it was, and a
    second [close] does nothing. *)
Lemma close_on_directory_publishes_nothing :
  let E := JS.MAX_SAFE_INTEGER in
  let sandbox := {| dh_path := "/sandbox" |} in
  let h := {| fh_path := "/sandbox/notadir" |} in
  let v0 := snd createMemoryFileSystem in
  let v1 := snd (removeEntry sandbox "notadir" None v0) in
  let v2 := snd (getDirectoryHandle sandbox "notadir" (Some true) v1) in
  let s := fresh_stream "/sandbox/notadir" in
  let w := snd (write E (Bytes [x01]) {| volume := v2; stream := s |}) in
  getFileHandle sandbox "notadir" None v0 = (Ok h, v0)
  /\ fst (removeEntry sandbox "notadir" None v0) = Ok tt
  /\ fst (getDirectoryHandle sandbox "notadir" (Some true) v1)
     = Ok {| dh_path := "/sandbox/notadir" |}
  /\ createWritable h None v2 = (Ok s, v2)
  /\ fst (write E (Bytes [x01]) {| volume := v2; stream := s |}) = Ok tt
  /\ ws_data (stream w) = [x01]
  /\ close w = (Throw (FsError EISDIR), with_closed w true)
  /\ volume (snd (close w)) = v2
  /\ readFileSync (volume (snd (close w))) "/sandbox/notadir" = inl EISDIR
  /\ close (snd (close w)) = (Ok tt, snd (close w)).
Proof.
  vm_compute. repeat split; reflexivity.
Qed.

(** A stream on a file that exists, and a stream on a file that is
    missing in /tmp, which [close] creates. *)
Lemma stream_publishes_on_close_witness :
  let E := JS.MAX_SAFE_INTEGER in
  let h := {| fh_path := "/sandbox/input.txt" |} in
  let h' := {| fh_path := "/tmp/new.txt" |} in
  let v := snd createMemoryFileSystem in
  let cs := [CallWrite (Bytes [x01; x02]); CallSeek 5;
             CallWrite (WriteParams None [x03]); CallTruncate 4] in
  let w := calls E cs {| volume := v; stream := fresh_stream (fh_path h) |} in
  let w' := calls E cs {| volume := v;
                          stream := fresh_stream (fh_path h') |} in
  volume w = v
  /\ getFile h (volume w) = getFile h v
  /\ ws_data (stream w) = [x01; x02; x00; x00]
  /\ readFileSync (volume (snd (close w))) (fh_path h)
     = inr [x01; x02; x00; x00]
  /\ (exists w'', close w' = (Ok tt, w'')
                  /\ readFileSync (volume w'') (fh_path h')
                     = inr [x01; x02; x00; x00]).
Proof.
  intros E h h' v cs w w'.
  pose proof (stream_publishes_on_close E h None v v
                (fresh_stream (fh_path h)) cs eq_refl)
    as (Hframe & Hbefore & Hpublish & _).
  pose proof (stream_publishes_on_close E h' None v v
                (fresh_stream (fh_path h')) cs eq_refl)
    as (_ & _ & Hpublish' & Hreturns).
  destruct (Hreturns eq_refl) as (_ & _ & Hmissing & _).
  destruct (Hmissing (mkStats true 0) eq_refl eq_refl eq_refl)
    as (w'' & Hclose).
  split; [exact Hframe|]. split; [exact Hbefore|]. split; [reflexivity|].
  split; [exact (proj1 (Hpublish (snd (close w)) eq_refl))|].
  exists w''. split; [exact Hclose|].
  exact (proj1 (Hpublish' w'' Hclose)).
Defined.


Lemma write_all_is_one_write_witness :
  let E := JS.MAX_SAFE_INTEGER in
  let w := {| volume := [];
              stream := {| ws_path := "/f"; ws_data := [x05; x06; x07];
                           ws_position := 1; ws_closed := false |} |} in
  write_all E [[x01]; []; [x02; x03]] w
  = write E (Bytes ([x01] ++ List.concat [[]; [x02; x03]])) w.
Proof.
  intros E w.
  destruct (write_all_is_one_write E [x01] [[]; [x02; x03]] w eq_refl)
    as (_ & Hsame & _).
  - simpl. lia.
  - apply Hsame. now apply Z.leb_le.
Defined.

Lemma failed_write_keeps_enlarged_buffer_witness :
  let E := JS.MAX_SAFE_INTEGER in
  let w := {| volume := [];
              stream := {| ws_path := "/f"; ws_data := [x05; x06];
                           ws_position := -1; ws_closed := false |} |} in
  write E (Bytes [x01; x02; x03; x04]) w
  = (Throw RangeError, with_data w [x05; x06; x00]).
Proof.
  intros E w.
  destruct (failed_write_keeps_enlarged_buffer E
              (Bytes [x01; x02; x03; x04]) w eq_refl) as (_ & Hheld).
  - simpl. lia.
  - apply Hheld. now apply Z.leb_le.
Defined.

Lemma truncate_negative_drops_tail_witness :
  let E := JS.MAX_SAFE_INTEGER in
  let w := {| volume := [];
              stream := {| ws_path := "/f"; ws_data := [x05; x06; x07];
                           ws_position := 3; ws_closed := false |} |} in
  fst (truncate E (-2) w) = Ok tt
  /\ ws_data (stream (snd (truncate E (-2) w))) = [x05]
  /\ ws_position (stream (snd (truncate E (-2) w))) = -2.
Proof.
  intros E w.
  destruct (truncate_negative_drops_tail E (-2) w eq_refl eq_refl) as (H & _).
  rewrite H. repeat split; reflexivity.
Defined.

Lemma nonnegative_calls_throw_only_beyond_limit_witness :
  let E := JS.MAX_SAFE_INTEGER in
  let w := {| volume := []; stream := fresh_stream "/f" |} in
  let cs := [CallSeek 4; CallWrite (Bytes [x01]); CallTruncate 2;
             CallWrite (WriteParams (Some 7) [x02])] in
  extent cs 0 = 8
  /\ Forall (fun r => r = Ok tt) (call_results E cs w)
  /\ call_results E [CallSeek (2 ^ 53); CallWrite (Bytes [x01]); CallSeek 0;
                     CallWrite (Bytes [x01])] w
     = [Ok tt; Throw RangeError; Ok tt; Ok tt]
  /\ ws_closed (stream (calls E cs w)) = false
  /\ 0 <= ws_position (stream (calls E cs w)).
Proof.
  intros E w cs. split; [reflexivity|].
  destruct (nonnegative_calls_throw_only_beyond_limit E cs w eq_refl)
    as (_ & Hopen & Hpos & Hall); [simpl; lia|reflexivity|].
  split; [apply Hall; now apply Z.leb_le|].
  split; [reflexivity|]. split; [exact Hopen|exact Hpos].
Defined.


